(** * A shallow embedding of the key-value database (database.h,
      database.cpp, Client.cpp, Server.cpp) and the properties of its
      codec, store, statistics and client.

    Conventions of the embedding:
    - [std::string] and [std::vector<char>] are lists of bytes; a
      [std::string] may hold NUL bytes;
    - [size_t], [uint16_t] and [uint8_t] values are integers of [Z] with
      the wrap-around written out;
    - an [enum class E : uint8_t] is a wrapped byte with named constants:
      every value of the underlying type is a value of the enumeration;
    - the object representation of an integer depends on the byte order
      of the host, which is a parameter of the codec;
    - a [const_buffer] is a pointer and a size over a byte-addressed
      memory. *)

From Stdlib Require Import ZArith Strings.Byte Strings.String.
From stdpp Require Import base option numbers list countable gmap pretty.

Local Open Scope Z_scope.

(** ** Bytes and strings *)

Abbreviation std_string := (list byte) (only parsing).

Definition byte_to_Z (b : byte) : Z := Z.of_N (Byte.to_N b).

Definition byte_of_Z (z : Z) : byte :=
  default x00 (Byte.of_N (Z.to_N (z mod 256))).

#[global] Instance byte_eq_decision : EqDecision byte := Byte.byte_eq_dec.

#[global] Program Instance byte_countable : Countable byte :=
  inj_countable' Byte.to_N (fun n => default x00 (Byte.of_N n)) _.
Next Obligation. intros b. cbv beta. now rewrite Byte.of_to_N. Qed.

(** [std::string::size()] and [std::vector::size()], a [size_t]. *)
Definition std_size (s : std_string) : Z := Z.of_nat (length s).

(** [std::string::c_str()] read back as a C string: the bytes before the
    first NUL byte. *)
Fixpoint c_str (s : std_string) : std_string :=
  match s with
  | [] => []
  | b :: s' => if decide (b = x00) then [] else b :: c_str s'
  end.

(** ** database.h: enumerations, limits *)

Record Error := MkError { error_code_of : byte }.

Definition NONE := MkError x00.
Definition INSERT_KEY_ALREADY_EXISTS := MkError x01.
Definition UPDATE_KEY_NOT_FOUND := MkError x02.
Definition UPDATE_VALUE_ALREADY_EXISTS := MkError x03.
Definition DELETE_KEY_NOT_FOUND := MkError x04.
Definition GET_KEY_NOT_FOUND := MkError x05.
Definition INVALID_KEY_LENGTH := MkError x06.
Definition INVALID_VALUE_LENGTH := MkError x07.

Record Operation := MkOperation { operation_code_of : byte }.

Definition INSERT := MkOperation x00.
Definition UPDATE := MkOperation x01.
Definition DELETE := MkOperation x02.
Definition GET := MkOperation x03.

#[global] Instance Error_eq_decision : EqDecision Error.
Proof. solve_decision. Defined.

#[global] Instance Operation_eq_decision : EqDecision Operation.
Proof. solve_decision. Defined.

#[global] Program Instance Operation_countable : Countable Operation :=
  inj_countable' operation_code_of MkOperation _.
Next Obligation. now intros []. Qed.

(** The enumerators that the two [enum class] declarations list. *)
Definition declared_operation (o : Operation) : bool :=
  bool_decide (o ∈ [INSERT; UPDATE; DELETE; GET]).

Definition declared_error (e : Error) : bool :=
  bool_decide (e ∈ [NONE; INSERT_KEY_ALREADY_EXISTS; UPDATE_KEY_NOT_FOUND;
                    UPDATE_VALUE_ALREADY_EXISTS; DELETE_KEY_NOT_FOUND;
                    GET_KEY_NOT_FOUND; INVALID_KEY_LENGTH;
                    INVALID_VALUE_LENGTH]).

Abbreviation Key := (list byte) (only parsing).
Abbreviation Value := (list byte) (only parsing).

Definition MAX_KEY_LENGTH : Z := 1024.

Definition isValidKey (key : Key) : bool := std_size key <=? MAX_KEY_LENGTH.

Definition MAX_VALUE_LENGTH : Z := 1048576.

Definition isValidValue (value : Value) : bool :=
  std_size value <=? MAX_VALUE_LENGTH.

(** BOOST_FUSION_DEFINE_STRUCT((database), Request, ...) and
    BOOST_FUSION_DEFINE_STRUCT((database), Response, ...): the fields in
    declaration order, which is the order [boost::fusion::for_each]
    visits them in. *)
Module Request.
Record t := Make { operation : Operation; key : Key; value : Value }.
End Request.

Module Response.
Record t := Make { operation : Operation; error : Error; value : Value }.
End Response.

(** ** Object representation of integers *)

Inductive ByteOrder := LittleEndian | BigEndian.

(** The [n] low-order bytes of [v], least significant first. *)
Fixpoint le_bytes (n : nat) (v : Z) : list byte :=
  match n with
  | O => []
  | S n' => byte_of_Z v :: le_bytes n' (v / 256)
  end.

Fixpoint le_value (bs : list byte) : Z :=
  match bs with
  | [] => 0
  | b :: bs' => byte_to_Z b + 256 * le_value bs'
  end.

(** The most significant byte first: network byte order. *)
Definition be_bytes (n : nat) (v : Z) : list byte := rev (le_bytes n v).

Definition byteswap (n : nat) (v : Z) : Z := le_value (rev (le_bytes n v)).

(** ** Memory and [boost::asio::const_buffer] *)

(** A byte-addressed memory. A read through a pointer is not confined to
    the buffer the pointer was taken from: what lies past the end of a
    vector is whatever the memory holds there. *)
Definition memory := nat -> byte.

Definition load (mem : memory) (p n : nat) : list byte :=
  map mem (seq p n).

(** The memory [mem] with the contents of the vector [v] at address
    [base]. *)
Definition place (base : nat) (v : list byte) (mem : memory) : memory :=
  fun a =>
    if decide (base <= a < base + length v)%nat
    then nth (a - base) v x00
    else mem a.

Record const_buffer := MkBuffer { cb_data : nat; cb_size : nat }.

(** [operator+(const const_buffer &b, std::size_t n)] of Boost.Asio:
    the offset is clamped to the size of the buffer. *)
Definition buffer_advance (b : const_buffer) (n : nat) : const_buffer :=
  let offset := if (n <? cb_size b)%nat then n else cb_size b in
  MkBuffer (cb_data b + offset) (cb_size b - offset).

Infix "+ₚ" := buffer_advance (at level 50, left associativity).

(** [boost::asio::const_buffer(buf.data(), buf.size())] for a vector
    that lives at address [base]. *)
Definition buffer_of (base : nat) (v : list byte) : const_buffer :=
  MkBuffer base (length v).


Section Host.
Variable host : ByteOrder.

(** What [memcpy(dst, &v, n)] copies out of an [n]-byte unsigned [v],
    and what dereferencing a [T const *] reads back. *)
Definition object_bytes (n : nat) (v : Z) : list byte :=
  match host with
  | LittleEndian => le_bytes n v
  | BigEndian => be_bytes n v
  end.

Definition object_value (bs : list byte) : Z :=
  match host with
  | LittleEndian => le_value bs
  | BigEndian => le_value (rev bs)
  end.

(** The system's [htons], [htonl], [htonll] and their inverses: the
    argument is converted to the function's parameter type, and its
    bytes are swapped on a little-endian host. *)
Definition hton_sys (n : nat) (v : Z) : Z :=
  let v' := v mod 2 ^ (8 * Z.of_nat n) in
  match host with
  | LittleEndian => byteswap n v'
  | BigEndian => v'
  end.

Definition htons := hton_sys 2.
Definition htonl := hton_sys 4.
Definition htonll := hton_sys 8.
Definition ntohs := hton_sys 2.
Definition ntohl := hton_sys 4.
Definition ntohll := hton_sys 8.

(** [template<typename T> T ntoh(T v)]: [size] is [sizeof(T)], a
    number of bytes, compared with 16, 32 and 64. *)
Definition ntoh (sizeof_T : nat) (v : Z) : Z :=
  let size := sizeof_T in
  if (16 =? size)%nat then ntohs v
  else if (32 =? size)%nat then ntohl v
  else if (64 =? size)%nat then ntohll v
  else v.

Definition hton (sizeof_T : nat) (v : Z) : Z :=
  let size := sizeof_T in
  if (16 =? size)%nat then htons v
  else if (32 =? size)%nat then htonl v
  else if (64 =? size)%nat then htonll v
  else v.

(** *** Writer *)

(** [std::vector<char>::resize] to a larger size value-initialises the
    new bytes; [std::memcpy(buf.data() + offset, src, n)]. *)
Definition resize (buf : list byte) (n : nat) : list byte :=
  take n buf ++ replicate (n - length buf) x00.

Definition memcpy_at (buf : list byte) (offset : nat) (src : list byte)
  : list byte :=
  take offset buf ++ src ++ drop (offset + length src) buf.

(** [Writer::operator()(T const &val)] for an integral or enumeration
    [T] of [sizeof_T] bytes; the state is the referenced vector
    [buf_]. *)
Definition Writer_scalar (sizeof_T : nat) (val : Z) (buf_ : list byte)
  : list byte :=
  let valSize := sizeof_T in
  let writeOffset := length buf_ in
  let buf_ := resize buf_ (length buf_ + valSize) in
  let tmp := hton sizeof_T val in
  memcpy_at buf_ writeOffset (object_bytes valSize tmp).

Definition static_cast_uint16 (v : Z) : Z := v mod 65536.

(** [Writer::operator()(const std::string &val)]. *)
Definition Writer_string (val : std_string) (buf_ : list byte)
  : list byte :=
  let valSize := std_size val in
  let buf_ := Writer_scalar 2 (static_cast_uint16 valSize) buf_ in
  let writeOffset := length buf_ in
  let buf_ := resize buf_ (length buf_ + Z.to_nat valSize) in
  memcpy_at buf_ writeOffset val.

(** [boost::fusion::for_each(request, writer)] and
    [boost::fusion::for_each(response, writer)]. *)
Definition write_Request (request : Request.t) (buf_ : list byte)
  : list byte :=
  let buf_ :=
    Writer_scalar 1 (byte_to_Z (operation_code_of (Request.operation request)))
                  buf_ in
  let buf_ := Writer_string (Request.key request) buf_ in
  Writer_string (Request.value request) buf_.

Definition write_Response (response : Response.t) (buf_ : list byte)
  : list byte :=
  let buf_ :=
    Writer_scalar 1 (byte_to_Z (operation_code_of (Response.operation response)))
                  buf_ in
  let buf_ :=
    Writer_scalar 1 (byte_to_Z (error_code_of (Response.error response)))
                  buf_ in
  Writer_string (Response.value response) buf_.

(** *** Reader *)

(** [Reader::operator()(T &val)] for an integral or enumeration [T]:
    the value is read through the buffer's data pointer, whatever the
    buffer's size is, and the buffer is advanced. [Reader] is
    constructed over a memory [mem] that it only reads. *)
Definition Reader_scalar (mem : memory) (sizeof_T : nat)
    (buf_ : const_buffer) : Z * const_buffer :=
  let val := ntoh sizeof_T (object_value (load mem (cb_data buf_) sizeof_T)) in
  (val, buf_ +ₚ sizeof_T).

(** [Reader::operator()(std::string &val)]. *)
Definition Reader_string (mem : memory) (buf_ : const_buffer)
  : std_string * const_buffer :=
  let '(length, buf_) := Reader_scalar mem 2 buf_ in
  let val := load mem (cb_data buf_) (Z.to_nat length) in
  (val, buf_ +ₚ Z.to_nat length).

(** [boost::fusion::for_each(request_, reader)] and
    [boost::fusion::for_each(response, reader)]; the result is the
    message together with the reader's final [buf()]. *)
Definition read_Request (mem : memory) (buf_ : const_buffer)
  : Request.t * const_buffer :=
  let '(operation, buf_) := Reader_scalar mem 1 buf_ in
  let '(key, buf_) := Reader_string mem buf_ in
  let '(value, buf_) := Reader_string mem buf_ in
  (Request.Make (MkOperation (byte_of_Z operation)) key value, buf_).

Definition read_Response (mem : memory) (buf_ : const_buffer)
  : Response.t * const_buffer :=
  let '(operation, buf_) := Reader_scalar mem 1 buf_ in
  let '(error, buf_) := Reader_scalar mem 1 buf_ in
  let '(value, buf_) := Reader_string mem buf_ in
  (Response.Make (MkOperation (byte_of_Z operation))
                 (MkError (byte_of_Z error)) value, buf_).
End Host.

(** ** database.cpp: the store *)

Module Database.
(** [struct Item { String key; String value; }]. *)
Record Item := MkItem { item_key : list byte; item_value : list byte }.

(** [Db]: a [multi_index_container] of [Item] with one index,
    [hashed_unique] on the member [key]: a finite map from the key to
    the value of the item that has it. *)
Abbreviation Db := (gmap (list byte) (list byte)).

(** [index.find(key)]: the item, or [None] for [index.end()]. *)
Definition find (index : Db) (key : list byte) : option Item :=
  MkItem key <$> index !! key.

(** [db_->emplace(item)]: a unique index refuses a second item with
    the same key; [second] tells whether the item went in. *)
Definition emplace (item : Item) (db_ : Db) : Db * bool :=
  match db_ !! item_key item with
  | Some _ => (db_, false)
  | None => (<[item_key item := item_value item]> db_, true)
  end.

(** [index.modify(it, mod_)]: the item is changed in place and
    re-indexed; it is dropped when its new key collides. *)
Definition modify (it : Item) (mod_ : Item -> Item) (index : Db) : Db :=
  let i := mod_ it in
  let rest := delete (item_key it) index in
  match rest !! item_key i with
  | Some _ => rest
  | None => <[item_key i := item_value i]> rest
  end.

(** [index.erase(it)]. *)
Definition erase (it : Item) (index : Db) : Db := delete (item_key it) index.

(** The four operations hold [db_mtx_] from entry to exit, so each is
    one step on the container: the container before, the result and
    the container after. *)
Definition ins (rawKey : Key) (rawValue : Value) (db_ : Db) : Error * Db :=
  let key := c_str rawKey in
  let value := c_str rawValue in
  let index := db_ in
  match find index key with
  | Some _ => (INSERT_KEY_ALREADY_EXISTS, db_)
  | None =>
      let '(db_, second) := emplace (MkItem key value) db_ in
      (if second then NONE else INSERT_KEY_ALREADY_EXISTS, db_)
  end.

Definition upd (rawKey : Key) (rawValue : Value) (db_ : Db) : Error * Db :=
  let key := c_str rawKey in
  let value := c_str rawValue in
  let index := db_ in
  match find index key with
  | None => (UPDATE_KEY_NOT_FOUND, db_)
  | Some it =>
      if decide (item_value it = value)
      then (UPDATE_VALUE_ALREADY_EXISTS, db_)
      else (NONE, modify it (fun i => MkItem (item_key i) value) index)
  end.

Definition del (rawKey : Key) (db_ : Db) : Error * Db :=
  let key := c_str rawKey in
  let index := db_ in
  match find index key with
  | None => (DELETE_KEY_NOT_FOUND, db_)
  | Some it => (NONE, erase it index)
  end.

(** [get] has an out-parameter [value], which it assigns only when
    the key is found. *)
Definition get (rawKey : Key) (value : Value) (db_ : Db)
  : (Error * Value) * Db :=
  let key := c_str rawKey in
  let index := db_ in
  match find index key with
  | None => ((GET_KEY_NOT_FOUND, value), db_)
  | Some it => ((NONE, item_value it), db_)
  end.

Definition size (db_ : Db) : Z := Z.of_nat (base.size db_).
End Database.

(** ** Server.cpp: the statistics *)

Module Stats.
(** [Counter] is [std::atomic<size_t>]. *)
Definition size_t_wrap (v : Z) : Z := v mod 2 ^ 64.
Definition incr (cnt : Z) : Z := size_t_wrap (cnt + 1).
Definition decr (cnt : Z) : Z := size_t_wrap (cnt - 1).

Record OperationStats := MkOperationStats { successful : Z; failed : Z }.

Record t := Make {
  totalItemsInDb_ : Z;
  operationStats_ : gmap Operation OperationStats
}.

(** [operationStats_[operation]] on a [std::unordered_map]: a missing
    entry is value-initialised, with both counters 0. *)
Definition at_operation (m : gmap Operation OperationStats)
    (operation : Operation) : OperationStats :=
  default (MkOperationStats 0 0) (m !! operation).

Definition update (operation : Operation) (error : Error) (s : t) : t :=
  let stats := at_operation (operationStats_ s) operation in
  let failed_ := bool_decide (error <> NONE) in
  let stats :=
    if failed_
    then MkOperationStats (successful stats) (incr (failed stats))
    else MkOperationStats (incr (successful stats)) (failed stats) in
  let total := totalItemsInDb_ s in
  let total :=
    if bool_decide (operation = INSERT) && negb failed_
    then incr total else total in
  let total :=
    if bool_decide (operation = DELETE) && negb failed_
    then decr total else total in
  Make total (<[operation := stats]> (operationStats_ s)).
End Stats.

(** ** Client.cpp *)

Module Client.
(** C++ exceptions: a call returns or throws. *)
Inductive exception := invalid_argument (what : string).

Inductive outcome (A : Type) :=
| Returns (a : A)
| Throws (e : exception).
Arguments Returns {A} a.
Arguments Throws {A} e.

(** [boost::asio::ip::tcp::endpoint]: address and port. *)
Definition endpoint := (N * N)%type.

(** [boost::system::error_code]: 0 is success. *)
Definition error_code := nat.

(** What the client does to its socket, in order. *)
Inductive event :=
| Event_connect (peer : endpoint)
| Event_write (data : list byte)
| Event_read (n : nat)
| Event_close.

(** The other side of the socket: the result of every socket call,
    given all the calls made before it; and where the receive vector
    of [Client::read] lives in which memory. *)
Record Network := MkNetwork {
  connect_result : list event -> endpoint -> error_code;
  write_result : list event -> list byte -> error_code;
  read_result : list event -> nat -> error_code * list byte;
  heap : memory;
  buf_address : nat
}.

(** The members of [Client]; the socket is its history of calls. *)
Record t := Make {
  lastEndpoint_ : endpoint;
  socket_ : list event;
  m_isConnected : bool
}.

(** [Client::Client]. *)
Definition new : t := Make (0%N, 0%N) [] false.

(** Member functions: a state transformer over the members that
    returns or throws. *)
Definition M (A : Type) : Type := t -> outcome A * t.

#[global] Instance M_ret : MRet M := fun A a c => (Returns a, c).
#[global] Instance M_bind : MBind M := fun A B f m c =>
  match m c with
  | (Returns a, c') => f a c'
  | (Throws e, c') => (Throws e, c')
  end.

Definition throw {A} (e : exception) : M A := fun c => (Throws e, c).
Definition this : M t := fun c => (Returns c, c).
Definition assign (f : t -> t) : M unit := fun c => (Returns tt, f c).
Definition when (b : bool) (m : M unit) : M unit := if b then m else mret tt.

Definition to_string (n : Z) : string := pretty n.

Section Client.
Variable host : ByteOrder.
Variable net : Network.

Definition socket_call {A} (e : event) (result : list event -> A) : M A :=
  fun c =>
    (Returns (result (socket_ c)),
     Make (lastEndpoint_ c) (socket_ c ++ [e]) (m_isConnected c)).

(** [socket_.connect(peer, ec)], [boost::asio::write(socket_, b, ec)],
    [boost::asio::read(socket_, b, ec)] into a buffer of [n] bytes,
    and [socket_.close()]. *)
Definition socket_connect (peer : endpoint) : M error_code :=
  socket_call (Event_connect peer) (fun h => connect_result net h peer).

Definition asio_write (data : list byte) : M error_code :=
  socket_call (Event_write data) (fun h => write_result net h data).

Definition asio_read (n : nat) : M (error_code * list byte) :=
  socket_call (Event_read n)
    (fun h => let '(ec, data) := read_result net h n in (ec, take n data)).

Definition socket_close : M unit := socket_call Event_close (fun _ => tt).

(** [Client::write]. The size goes out as the 8 bytes of the
    [size_t] object. *)
Definition write (request : Request.t) : M error_code :=
  let buf := write_Request host request [] in
  let size := std_size buf in
  ec ← asio_write (object_bytes host 8 size);
  if decide (ec = 0%nat) then asio_write buf else mret ec.

(** [Client::read]. The reader runs over the vector also when the
    second read reports an error. *)
Definition read (response : Response.t) : M (error_code * Response.t) :=
  '(ec, data) ← asio_read 8;
  let size := object_value host (memcpy_at (object_bytes host 8 0) 0 data) in
  if decide (ec = 0%nat) then
    let buf := replicate (Z.to_nat size) x00 in
    '(ec, data) ← asio_read (length buf);
    let buf := memcpy_at buf 0 data in
    let mem := place (buf_address net) buf (heap net) in
    let '(response, _) :=
      read_Response host mem (buffer_of (buf_address net) buf) in
    mret (ec, response)
  else mret (ec, response).

(** [Client::send]. *)
Definition send (endpoint_ : endpoint) (request : Request.t)
    (response : Response.t) : M (error_code * Response.t) :=
  when (negb (isValidKey (Request.key request)))
    (throw (invalid_argument
       ("Got KEY exceeding max length of " +:+ to_string MAX_KEY_LENGTH
        +:+ " characters")));;
  when (negb (isValidValue (Request.value request)))
    (throw (invalid_argument
       ("Got VALUE exceeding max length of " +:+ to_string MAX_VALUE_LENGTH
        +:+ " characters")));;
  c ← this;
  when (bool_decide (endpoint_ <> lastEndpoint_ c))
    (assign (fun c => Make endpoint_ (socket_ c) (m_isConnected c)));;
  c ← this;
  errorCode ←
    (if negb (m_isConnected c) then
       c ← this;
       errorCode ← socket_connect (lastEndpoint_ c);
       when (bool_decide (errorCode = 0%nat))
         (assign (fun c => Make (lastEndpoint_ c) (socket_ c) true));;
       mret errorCode
     else mret 0%nat);
  c ← this;
  if m_isConnected c then
    errorCode ← write request;
    '(errorCode, response) ←
      (if decide (errorCode = 0%nat) then read response
       else mret (errorCode, response));
    when (negb (bool_decide (errorCode = 0%nat)))
      (socket_close;;
       assign (fun c => Make (lastEndpoint_ c) (socket_ c) false));;
    mret (errorCode, response)
  else mret (errorCode, response).
End Client.
End Client.

(** ** database.cpp: the names of the enumerators, and the printers *)

(** [std::unordered_map::find] on a map built from an initialiser list
    with distinct keys. *)
Fixpoint unordered_map_find {K V : Type} `{EqDecision K}
    (m : list (K * V)) (k : K) : option V :=
  match m with
  | [] => None
  | (k', v) :: m' => if decide (k' = k) then Some v else unordered_map_find m' k
  end.

Definition ERRORS_MAP : list (Error * string) :=
  [ (NONE, "NONE");
    (DELETE_KEY_NOT_FOUND, "DELETE KEY NOT FOUND");
    (GET_KEY_NOT_FOUND, "GET KEY NOT FOUND");
    (INSERT_KEY_ALREADY_EXISTS, "INSERT KEY ALREADY EXISTS");
    (INVALID_KEY_LENGTH, "INVALID KEY LENGTH");
    (INVALID_VALUE_LENGTH, "INVALID VALUE LENGTH");
    (UPDATE_KEY_NOT_FOUND, "UPDATE KEY NOT FOUND");
    (UPDATE_VALUE_ALREADY_EXISTS, "UPDATE VALUE ALREADY EXISTS") ]%string.

Definition errorToString (e : Error) : Client.outcome string :=
  match unordered_map_find ERRORS_MAP e with
  | Some name => Client.Returns name
  | None =>
      Client.Throws (Client.invalid_argument "got unknown database::Error")
  end.

Definition OPERATIONS_MAP : list (Operation * string) :=
  [ (INSERT, "INSERT"); (UPDATE, "UPDATE");
    (DELETE, "DELETE"); (GET, "GET") ]%string.

Definition operationToString (o : Operation) : Client.outcome string :=
  match unordered_map_find OPERATIONS_MAP o with
  | Some name => Client.Returns name
  | None =>
      Client.Throws (Client.invalid_argument "got unknown database::Operation")
  end.

(** [boost::lexical_cast<database::Operation>(s)] of database.h;
    [None] is [boost::bad_lexical_cast]. The numeric keys are
    [std::to_string] of the enumerator's [uint8_t] code. *)
Definition lexical_cast_code (o : Operation) : string :=
  Client.to_string (byte_to_Z (operation_code_of o)).

Definition LEXICAL_OPERATIONS_MAP : list (string * Operation) :=
  [ ("INSERT", INSERT); ("I", INSERT); (lexical_cast_code INSERT, INSERT);
    ("UPDATE", UPDATE); ("U", UPDATE); (lexical_cast_code UPDATE, UPDATE);
    ("DELETE", DELETE); ("D", DELETE); (lexical_cast_code DELETE, DELETE);
    ("GET", GET); ("G", GET); (lexical_cast_code GET, GET) ]%string.

Definition lexical_cast_Operation (s : string) : option Operation :=
  unordered_map_find LEXICAL_OPERATIONS_MAP s.

(** What goes into a [std::stringstream]: the characters of a literal,
    the bytes of a [std::string]. *)
Definition chars (s : string) : list byte := list_byte_of_string s.

(** [printf("%s\n", ss.str().c_str())]: the line that reaches the
    output stops at the first NUL byte of the text. *)
Definition printf_line (ss : list byte) : list byte := c_str ss ++ [x0a].

(** [printResponse]: the line printed, unless a name lookup throws. *)
Definition printResponse (response : Response.t) : Client.outcome (list byte) :=
  let ss := chars "Response {" in
  match operationToString (Response.operation response) with
  | Client.Throws e => Client.Throws e
  | Client.Returns name =>
      let ss := ss ++ chars "Operation: " ++ chars name in
      let op := Response.operation response in
      let error_text :=
        match errorToString (Response.error response) with
        | Client.Throws e => Client.Throws e
        | Client.Returns text => Client.Returns (chars ", ERROR: " ++ chars text)
        end in
      let case :=
        if bool_decide (op = INSERT \/ op = UPDATE \/ op = DELETE) then
          if decide (NONE = Response.error response)
          then Client.Returns (chars ", SUCCESS")
          else error_text
        else if bool_decide (op = GET) then
          if decide (NONE = Response.error response)
          then Client.Returns (chars ", SUCCESS, got value: "
                               ++ Response.value response)
          else error_text
        else Client.Returns [] in
      match case with
      | Client.Throws e => Client.Throws e
      | Client.Returns text =>
          Client.Returns (printf_line (ss ++ text ++ chars "}"))
      end
  end.

(** [printRequest]. *)
Definition printRequest (request : Request.t) : Client.outcome (list byte) :=
  let ss := chars "Request {" in
  match operationToString (Request.operation request) with
  | Client.Throws e => Client.Throws e
  | Client.Returns name =>
      let ss := ss ++ chars "Operation: " ++ chars name in
      let op := Request.operation request in
      let case :=
        if bool_decide (op = INSERT \/ op = UPDATE) then
          chars ", Key: " ++ Request.key request
          ++ chars ", Value: " ++ Request.value request
        else if bool_decide (op = DELETE \/ op = GET) then
          chars ", Key: " ++ Request.key request
        else [] in
      Client.Returns (printf_line (ss ++ case ++ chars "}"))
  end.

(** ** Server.cpp: the session *)

Module Session.
(** The members of [Session] that a request goes through. *)
Record t := Make {
  bufSize_ : Z;
  buf_ : list byte;
  request_ : Request.t;
  response_ : Response.t
}.

(** [Session::Session]: the messages are value-initialised. *)
Definition new : t :=
  Make 0 [] (Request.Make (MkOperation x00) [] [])
       (Response.Make (MkOperation x00) (MkError x00) []).

(** What the sessions of a server share: the [Database] singleton and
    the [Stats]. *)
Record Shared := MkShared {
  db_ : gmap (list byte) (list byte);
  stats_ : Stats.t
}.

(** [Session::handleRequest]. The [switch] has no [default]: for an
    operation outside the four enumerators no case runs, [response_]
    stays and the local [error] is passed on uninitialised; its
    [indeterminate] value is a parameter. *)
Definition handleRequest (indeterminate : Error) (s : t) (shared : Shared)
  : t * Shared :=
  let db := db_ shared in
  let request := request_ s in
  let op := Request.operation request in
  let '(error, response, db) :=
    if decide (op = INSERT) then
      let '(error, db) :=
        Database.ins (Request.key request) (Request.value request) db in
      (error, Response.Make op error [], db)
    else if decide (op = UPDATE) then
      let '(error, db) :=
        Database.upd (Request.key request) (Request.value request) db in
      (error, Response.Make op error [], db)
    else if decide (op = DELETE) then
      let '(error, db) := Database.del (Request.key request) db in
      (error, Response.Make op error [], db)
    else if decide (op = GET) then
      let '((error, value), db) := Database.get (Request.key request) [] db in
      (error, Response.Make op error value, db)
    else (indeterminate, response_ s, db) in
  (Make (bufSize_ s) (buf_ s) request response,
   MkShared db (Stats.update op error (stats_ shared))).

Section Session.
Variable host : ByteOrder.
(** Where the vector [buf_] lives, in which memory. *)
Variables (mem : memory) (base : nat).

(** The completion handler of the first [async_read_some] of
    [Session::read], without error: [data], at most 8 bytes, has been
    received into [bufSize_], and [buf_] is resized for the body. *)
Definition on_size (data : list byte) (s : t) : t :=
  let bufSize :=
    object_value host
      (memcpy_at (object_bytes host 8 (bufSize_ s)) 0 (take 8 data)) in
  Make bufSize (resize (buf_ s) (Z.to_nat bufSize)) (request_ s) (response_ s).

(** The encoding part of [Session::write]: [buf_] is cleared and
    filled from [response_]; the size and then [buf_] are handed to
    [async_write]. The size is a local variable of [Session::write]:
    the word is what it holds while [Session::write] runs. *)
Definition write (s : t) : t * list (list byte) :=
  let buf := write_Response host (response_ s) [] in
  let size := std_size buf in
  (Make (bufSize_ s) buf (request_ s) (response_ s),
   [object_bytes host 8 size; buf]).

(** The completion handler of the second [async_read_some], without
    error: [data], at most [buf_.size()] bytes, has been received into
    [buf_]; the request is decoded, printed, handled and answered. An
    exception of [printRequest] leaves the handler before the store
    is called. The result is what is handed to [async_write]. *)
Definition on_body (indeterminate : Error) (data : list byte)
    (s : t) (shared : Shared)
  : Client.outcome (list (list byte)) * (t * Shared) :=
  let buf := memcpy_at (buf_ s) 0 (take (length (buf_ s)) data) in
  let '(request, _) :=
    read_Request host (place base buf mem) (buffer_of base buf) in
  let s := Make (bufSize_ s) buf request (response_ s) in
  match printRequest request with
  | Client.Throws e => (Client.Throws e, (s, shared))
  | Client.Returns _ =>
      let '(s, shared) := handleRequest indeterminate s shared in
      let '(s, out) := write s in
      (Client.Returns out, (s, shared))
  end.
End Session.

(** The requests of a list handled one after the other. *)
Fixpoint handle_all (indeterminate : Error) (requests : list Request.t)
    (s : t) (shared : Shared) : t * Shared :=
  match requests with
  | [] => (s, shared)
  | request :: rest =>
      let '(s, shared) :=
        handleRequest indeterminate
          (Make (bufSize_ s) (buf_ s) request (response_ s)) shared in
      handle_all indeterminate rest s shared
  end.
End Session.

(** ** Sample data and auxiliary notions of the statements *)

(** The buffer that is left of the vector [pre ++ rest] at [base] once
    [pre] has been consumed. *)
Definition cursor (base : nat) (pre rest : list byte) : const_buffer :=
  MkBuffer (base + length pre) (length rest).

Definition a_request : Request.t := Request.Make INSERT [x61] [x31].
Definition a_response : Response.t := Response.Make GET NONE [x31].

(** A value one byte longer than the length field can count. *)
Definition long_value : list byte := replicate (Z.to_nat 65536) x00.

(** A key and a value with an embedded NUL byte: "a\0b" and "1\0" "2". *)
Definition key_a_NUL_b : list byte := [x61; x00; x62].
Definition value_1_NUL_2 : list byte := [x31; x00; x32].

(** The calls of the store, and the error and the container a call
    leaves. *)
Inductive store_call :=
| Ins (k v : list byte)
| Upd (k v : list byte)
| Del (k : list byte)
| Get (k out : list byte).

Definition store_run (c : store_call) (db : gmap (list byte) (list byte))
  : Error * gmap (list byte) (list byte) :=
  match c with
  | Ins k v => Database.ins k v db
  | Upd k v => Database.upd k v db
  | Del k => Database.del k db
  | Get k out => (fst (fst (Database.get k out db)), snd (Database.get k out db))
  end.

Definition KEY_exceeds : string :=
  "Got KEY exceeding max length of 1024 characters".
Definition VALUE_exceeds : string :=
  "Got VALUE exceeding max length of 1048576 characters".

Definition long_key : list byte := replicate 1025 x61.

Definition silent : Client.Network :=
  Client.MkNetwork (fun _ _ => 0%nat) (fun _ _ => 0%nat)
                   (fun _ _ => (0%nat, [])) (fun _ => x00) 0.

(** The key a call of the store is about, a run of calls, and the stores
    whose keys and values are C strings. *)
Definition call_key (c : store_call) : list byte :=
  match c with
  | Ins k _ | Upd k _ | Del k | Get k _ => k
  end.

Fixpoint store_run_all (calls : list store_call)
    (db : gmap (list byte) (list byte)) : gmap (list byte) (list byte) :=
  match calls with
  | [] => db
  | c :: rest => store_run_all rest (snd (store_run c db))
  end.

Definition C_strings (db : gmap (list byte) (list byte)) : Prop :=
  map_Forall (fun k v => (x00 ∉ k) /\ (x00 ∉ v)) db.

(** Whether a call returned. *)
Definition returned {A : Type} (r : Client.outcome A) : bool :=
  match r with
  | Client.Returns _ => true
  | Client.Throws _ => false
  end.

(** Three requests, a fresh session and a fresh server state. *)
Definition some_requests : list Request.t :=
  [ Request.Make INSERT [x61] [x31];
    Request.Make DELETE [x61] [];
    Request.Make GET [x61] [] ].

Definition fresh_shared : Session.Shared :=
  Session.MkShared ∅ (Stats.Make 0 ∅).

(** The call of the store that a request with a declared operation
    makes. *)
Definition call_of (request : Request.t) : store_call :=
  let k := Request.key request in
  let v := Request.value request in
  if decide (Request.operation request = INSERT) then Ins k v
  else if decide (Request.operation request = UPDATE) then Upd k v
  else if decide (Request.operation request = DELETE) then Del k
  else Get k [].

(** The four socket calls of one exchange, and a network that answers
    them, after the history [h], without error and with the frame of
    the response [r]. *)
Definition exchange host (request : Request.t) (r : Response.t)
  : list Client.event :=
  let payload := write_Request host request [] in
  let answer := write_Response host r [] in
  [ Client.Event_write (object_bytes host 8 (std_size payload));
    Client.Event_write payload;
    Client.Event_read 8;
    Client.Event_read (length answer) ].

Definition serves host (net : Client.Network) (h : list Client.event)
    (request : Request.t) (r : Response.t) : Prop :=
  let payload := write_Request host request [] in
  let word := object_bytes host 8 (std_size payload) in
  let answer := write_Response host r [] in
  Client.write_result net h word = 0%nat
  /\ Client.write_result net (h ++ [Client.Event_write word]) payload = 0%nat
  /\ Client.read_result net (h ++ take 2 (exchange host request r)) 8
     = (0%nat, object_bytes host 8 (std_size answer))
  /\ Client.read_result net (h ++ take 3 (exchange host request r))
       (length answer)
     = (0%nat, answer).

(** A network on which every call succeeds and every read brings the
    frame of [r], and one on which connecting fails. *)
Definition scripted host (r : Response.t) : Client.Network :=
  let answer := write_Response host r [] in
  Client.MkNetwork (fun _ _ => 0%nat) (fun _ _ => 0%nat)
    (fun _ n => (0%nat, if (n =? 8)%nat
                        then object_bytes host 8 (std_size answer)
                        else answer))
    (fun _ => xff) 128.

Definition unreachable : Client.Network :=
  Client.MkNetwork (fun _ _ => 111%nat) (fun _ _ => 32%nat)
                   (fun _ _ => (104%nat, [])) (fun _ => x00) 0.

Definition connected_client : Client.t :=
  Client.Make (1%N, 80%N) [Client.Event_connect (1%N, 80%N)] true.

(** The far end of the client's socket when a session in the state [s]
    with the shared state [shared] serves it, for one exchange. The
    history is read back from its end: the bytes the client has read
    since its last two writes, the size word [w] and the payload [p].
    Each write arrives whole at the session's reads; what the session
    hands to [async_write], the size word as [Session::write] computed
    it, comes back to the client as one stream of bytes. When the
    handler throws, the connection is reset. *)
Fixpoint exchange_state (reversed : list Client.event) (consumed : nat)
  : option (list byte * list byte * nat) :=
  match reversed with
  | Client.Event_read n :: earlier => exchange_state earlier (consumed + n)
  | Client.Event_write p :: Client.Event_write w :: _ => Some (w, p, consumed)
  | _ => None
  end.

Definition session_network host (mem : memory) (base : nat)
    (indeterminate : Error) (s : Session.t) (shared : Session.Shared)
    (heap : memory) (buf_address : nat) : Client.Network :=
  Client.MkNetwork (fun _ _ => 0%nat) (fun _ _ => 0%nat)
    (fun h n =>
       match exchange_state (rev h) 0 with
       | Some (w, p, consumed) =>
           match Session.on_body host mem base indeterminate p
                   (Session.on_size host w s) shared with
           | (Client.Returns out, _) =>
               (0%nat, take n (drop consumed (concat out)))
           | (Client.Throws _, _) => (104%nat, [])
           end
       | None => (104%nat, [])
       end)
    heap buf_address.

(** * Properties *)

(** ** Bytes and object representations *)

Lemma byte_of_to_Z (b : byte) : byte_of_Z (byte_to_Z b) = b.
Proof.
  unfold byte_of_Z, byte_to_Z.
  pose proof (Byte.to_N_bounded b) as Hb.
  rewrite Z.mod_small by lia.
  now rewrite N2Z.id, Byte.of_to_N.
Qed.

Lemma byte_to_of_Z (z : Z) : byte_to_Z (byte_of_Z z) = z mod 256.
Proof.
  unfold byte_of_Z, byte_to_Z.
  pose proof (Z.mod_pos_bound z 256 ltac:(lia)) as Hz.
  destruct (Byte.of_N (Z.to_N (z mod 256))) as [b|] eqn:Hb.
  - apply Byte.to_of_N in Hb. simpl. rewrite Hb. lia.
  - apply Byte.of_N_None_iff in Hb. lia.
Qed.

Lemma le_bytes_length (n : nat) (v : Z) : length (le_bytes n v) = n.
Proof. revert v. induction n as [|n IH]; intros v; cbn; [done|]. now rewrite IH. Qed.

Lemma le_value_le_bytes (n : nat) (v : Z) :
  le_value (le_bytes n v) = v mod 256 ^ Z.of_nat n.
Proof.
  revert v. induction n as [|n IH]; intros v.
  - cbn. now rewrite Z.mod_1_r.
  - cbn [le_bytes le_value]. rewrite IH, byte_to_of_Z.
    rewrite Nat2Z.inj_succ, Z.pow_succ_r by lia.
    rewrite Z.rem_mul_r by lia. reflexivity.
Qed.

Lemma object_bytes_length host (n : nat) (v : Z) :
  length (object_bytes host n v) = n.
Proof.
  destruct host; cbn; unfold be_bytes;
    rewrite ?length_rev; apply le_bytes_length.
Qed.

Lemma object_value_bytes host (n : nat) (v : Z) :
  object_value host (object_bytes host n v) = v mod 256 ^ Z.of_nat n.
Proof.
  destruct host; cbn; unfold be_bytes; rewrite ?rev_involutive;
    apply le_value_le_bytes.
Qed.

Lemma object_bytes_1 host (b : byte) : object_bytes host 1 (byte_to_Z b) = [b].
Proof. destruct host; cbn; now rewrite byte_of_to_Z. Qed.

(** [sizeof] counts bytes: for the one- and two-byte fields of the
    messages neither [hton] nor [ntoh] converts anything. *)
Lemma hton_1 host (v : Z) : hton host 1 v = v.
Proof. reflexivity. Qed.

Lemma hton_2 host (v : Z) : hton host 2 v = v.
Proof. reflexivity. Qed.

Lemma ntoh_1 host (v : Z) : ntoh host 1 v = v.
Proof. reflexivity. Qed.

Lemma ntoh_2 host (v : Z) : ntoh host 2 v = v.
Proof. reflexivity. Qed.

(** ** The writer appends *)

Lemma resize_memcpy_at (buf src : list byte) :
  memcpy_at (resize buf (length buf + length src)) (length buf) src
  = buf ++ src.
Proof.
  unfold memcpy_at, resize.
  rewrite (take_ge buf) by lia.
  rewrite take_app_length.
  rewrite drop_ge by (rewrite length_app, length_replicate; lia).
  now rewrite app_nil_r.
Qed.

Lemma Writer_scalar_app host (n : nat) (v : Z) (buf : list byte) :
  Writer_scalar host n v buf = buf ++ object_bytes host n (hton host n v).
Proof.
  unfold Writer_scalar.
  rewrite <- (object_bytes_length host n (hton host n v)) at 1.
  apply resize_memcpy_at.
Qed.

Lemma Writer_string_app host (val buf : list byte) :
  Writer_string host val buf
  = buf ++ object_bytes host 2 (std_size val mod 65536) ++ val.
Proof.
  unfold Writer_string, static_cast_uint16, std_size.
  rewrite Nat2Z.id, resize_memcpy_at, Writer_scalar_app, hton_2.
  now rewrite <- app_assoc.
Qed.

Lemma write_Request_app host (r : Request.t) (buf : list byte) :
  write_Request host r buf
  = buf ++ [operation_code_of (Request.operation r)]
        ++ (object_bytes host 2 (std_size (Request.key r) mod 65536)
            ++ Request.key r)
        ++ (object_bytes host 2 (std_size (Request.value r) mod 65536)
            ++ Request.value r).
Proof.
  unfold write_Request.
  rewrite !Writer_string_app, Writer_scalar_app, hton_1.
  assert (object_bytes host 1 (byte_to_Z (operation_code_of (Request.operation r)))
          = [operation_code_of (Request.operation r)]) as ->.
  { apply object_bytes_1. }
  now rewrite <- !app_assoc.
Qed.

Lemma write_Response_app host (r : Response.t) (buf : list byte) :
  write_Response host r buf
  = buf ++ [operation_code_of (Response.operation r)]
        ++ [error_code_of (Response.error r)]
        ++ (object_bytes host 2 (std_size (Response.value r) mod 65536)
            ++ Response.value r).
Proof.
  unfold write_Response.
  rewrite Writer_string_app, !Writer_scalar_app, !hton_1, !object_bytes_1.
  now rewrite <- !app_assoc.
Qed.

(** ** The reader over a vector placed in memory *)

Lemma load_place base (pre s post : list byte) (mem : memory) :
  load (place base (pre ++ s ++ post) mem) (base + length pre) (length s) = s.
Proof.
  unfold load. revert pre.
  induction s as [|b s IH]; intros pre; [done|].
  cbn [length seq map]. f_equal.
  - unfold place. rewrite decide_True by (rewrite !length_app; cbn; lia).
    replace (base + length pre - base)%nat with (length pre) by lia.
    apply nth_middle.
  - specialize (IH (pre ++ [b])).
    rewrite <- app_assoc, length_app in IH. cbn in IH.
    now replace (S (base + length pre)) with (base + (length pre + 1))%nat by lia.
Qed.

Lemma cursor_advance base (pre bytes post : list byte) :
  cursor base pre (bytes ++ post) +ₚ length bytes
  = cursor base (pre ++ bytes) post.
Proof.
  unfold cursor, buffer_advance. cbn [cb_data cb_size].
  rewrite !length_app.
  destruct (Nat.ltb_spec (length bytes) (length bytes + length post));
    f_equal; lia.
Qed.

Lemma buffer_of_cursor base (v : list byte) : buffer_of base v = cursor base [] v.
Proof. unfold buffer_of, cursor. cbn. now rewrite Nat.add_0_r. Qed.

Section ReaderPlaced.
Variable host : ByteOrder.
Variables (base : nat) (mem : memory).

Lemma Reader_scalar_placed (whole pre post : list byte) (n : nat) (v : Z) :
  whole = pre ++ object_bytes host n v ++ post ->
  ntoh host n = (fun v => v) ->
  0 <= v < 256 ^ Z.of_nat n ->
  Reader_scalar host (place base whole mem) n
    (cursor base pre (object_bytes host n v ++ post))
  = (v, cursor base (pre ++ object_bytes host n v) post).
Proof.
  intros -> Hntoh Hv. unfold Reader_scalar. f_equal.
  - cbn [cursor cb_data].
    pose proof (load_place base pre (object_bytes host n v) post mem) as H.
    rewrite object_bytes_length in H.
    rewrite H, object_value_bytes, Hntoh.
    now apply Z.mod_small.
  - pose proof (cursor_advance base pre (object_bytes host n v) post) as H.
    now rewrite object_bytes_length in H.
Qed.

Lemma Reader_byte_placed (whole pre post : list byte) (b : byte) :
  whole = pre ++ [b] ++ post ->
  Reader_scalar host (place base whole mem) 1 (cursor base pre ([b] ++ post))
  = (byte_to_Z b, cursor base (pre ++ [b]) post).
Proof.
  intros ->. rewrite <- (object_bytes_1 host b).
  apply Reader_scalar_placed; [done|done|].
  unfold byte_to_Z. pose proof (Byte.to_N_bounded b). lia.
Qed.

Lemma Reader_string_placed (whole pre post s field : list byte) :
  field = object_bytes host 2 (std_size s mod 65536) ++ s ->
  whole = pre ++ field ++ post ->
  std_size s <= 65535 ->
  Reader_string host (place base whole mem) (cursor base pre (field ++ post))
  = (s, cursor base (pre ++ field) post).
Proof.
  intros -> -> Hs. unfold Reader_string.
  assert (0 <= std_size s) by (unfold std_size; lia).
  rewrite Z.mod_small by lia.
  rewrite <- !app_assoc.
  erewrite Reader_scalar_placed; [|done|done|lia].
  assert (Z.to_nat (std_size s) = length s) as -> by apply Nat2Z.id.
  f_equal.
  - cbn [cursor cb_data].
    rewrite (app_assoc pre). apply load_place.
  - rewrite cursor_advance. now rewrite <- app_assoc.
Qed.
End ReaderPlaced.

Lemma read_Request_write_Request host base mem (request : Request.t) :
  std_size (Request.key request) <= 65535 ->
  std_size (Request.value request) <= 65535 ->
  let buf := write_Request host request [] in
  read_Request host (place base buf mem) (buffer_of base buf)
  = (request, MkBuffer (base + length buf) 0).
Proof.
  intros Hk Hv buf. subst buf. rewrite write_Request_app.
  destruct request as [[op] k v]. cbn [Request.operation Request.key Request.value
    operation_code_of app] in *.
  set (fk := object_bytes host 2 (std_size k mod 65536) ++ k).
  set (fv := object_bytes host 2 (std_size v mod 65536) ++ v).
  set (whole := op :: fk ++ fv).
  unfold read_Request.
  rewrite buffer_of_cursor.
  change whole with ([op] ++ fk ++ fv) at 2.
  rewrite (Reader_byte_placed host base mem whole [] (fk ++ fv) op) by done.
  rewrite (Reader_string_placed host base mem whole ([] ++ [op]) fv k fk) by done.
  replace (cursor base (([] ++ [op]) ++ fk) fv)
    with (cursor base ([op] ++ fk) (fv ++ [])) by now rewrite app_nil_r.
  rewrite (Reader_string_placed host base mem whole ([op] ++ fk) [] v fv);
    [|done|subst whole; now rewrite app_nil_r|done].
  rewrite byte_of_to_Z. f_equal.
Qed.

Lemma read_Response_write_Response host base mem (response : Response.t) :
  std_size (Response.value response) <= 65535 ->
  let buf := write_Response host response [] in
  read_Response host (place base buf mem) (buffer_of base buf)
  = (response, MkBuffer (base + length buf) 0).
Proof.
  intros Hv buf. subst buf. rewrite write_Response_app.
  destruct response as [[op] [err] v]. cbn [Response.operation Response.error
    Response.value operation_code_of error_code_of app] in *.
  set (fv := object_bytes host 2 (std_size v mod 65536) ++ v).
  set (whole := op :: err :: fv).
  unfold read_Response.
  rewrite buffer_of_cursor.
  change whole with ([op] ++ [err] ++ fv) at 2.
  rewrite (Reader_byte_placed host base mem whole [] ([err] ++ fv) op) by done.
  rewrite (Reader_byte_placed host base mem whole ([] ++ [op]) fv err) by done.
  replace (cursor base (([] ++ [op]) ++ [err]) fv)
    with (cursor base [op; err] (fv ++ [])) by now rewrite app_nil_r.
  rewrite (Reader_string_placed host base mem whole [op; err] [] v fv);
    [|done|subst whole; now rewrite app_nil_r|done].
  rewrite !byte_of_to_Z. f_equal.
Qed.

(** ** The codec *)

(** C2. For every host byte order, every [Request] and every [Response]
    whose string fields are at most 65,535 bytes long, whatever the
    address of the vector and the memory around it: [Reader] run over
    the vector that [Writer] filled from the message gives back the
    operation, error, key and value it was filled from, and leaves an
    empty buffer at the end of the vector. *)
Theorem codec_round_trip host base mem
    (request : Request.t) (response : Response.t) :
  std_size (Request.key request) <= 65535 ->
  std_size (Request.value request) <= 65535 ->
  std_size (Response.value response) <= 65535 ->
  let req_buf := write_Request host request [] in
  let resp_buf := write_Response host response [] in
  read_Request host (place base req_buf mem) (buffer_of base req_buf)
  = (request, MkBuffer (base + length req_buf) 0)
  /\ read_Response host (place base resp_buf mem) (buffer_of base resp_buf)
     = (response, MkBuffer (base + length resp_buf) 0).
Proof.
  intros Hk Hv Hr. split.
  - now apply read_Request_write_Request.
  - now apply read_Response_write_Response.
Qed.

Lemma codec_round_trip_witness :
  let req_buf := write_Request LittleEndian a_request [] in
  let resp_buf := write_Response LittleEndian a_response [] in
  read_Request LittleEndian (place 16 req_buf (fun _ => xff))
    (buffer_of 16 req_buf)
  = (a_request, MkBuffer (16 + length req_buf) 0)
  /\ read_Response LittleEndian (place 16 resp_buf (fun _ => xff))
       (buffer_of 16 resp_buf)
     = (a_response, MkBuffer (16 + length resp_buf) 0).
Proof.
  apply (codec_round_trip LittleEndian 16 (fun _ => xff) a_request a_response);
    vm_compute; discriminate.
Defined.

(** C3. [hton] and [ntoh] compare [sizeof(T)], a count of bytes, with
    16, 32 and 64, so the two-byte length of a string is never
    converted: it is written as the bytes of the [uint16_t] object, in
    the byte order of the host, as the 8-byte payload length is. On a
    little-endian host, the request INSERT "a" "1" is encoded with the
    length fields [01 00], where big-endian is [00 01], and framed by
    the payload length [07 00 00 00 00 00 00 00]; on a big-endian host
    alone the string lengths are big-endian. *)
Theorem string_length_in_host_byte_order :
  write_Request LittleEndian a_request []
  = [x00; x01; x00; x61; x01; x00; x31]
  /\ be_bytes 2 (std_size (Request.key a_request)) = [x00; x01]
  /\ Client.socket_
       (snd (Client.write LittleEndian silent a_request Client.new))
     = [Client.Event_write [x07; x00; x00; x00; x00; x00; x00; x00];
        Client.Event_write [x00; x01; x00; x61; x01; x00; x31]]
  /\ (forall host val buf,
        Writer_string host val buf
        = buf ++ object_bytes host 2 (std_size val mod 65536) ++ val)
  /\ (forall val buf,
        Writer_string BigEndian val buf
        = buf ++ be_bytes 2 (std_size val mod 65536) ++ val).
Proof.
  split; [reflexivity|]. split; [reflexivity|]. split; [reflexivity|]. split.
  - apply Writer_string_app.
  - intros val buf. apply (Writer_string_app BigEndian).
Qed.

Lemma long_value_size : std_size long_value = 65536.
Proof. unfold std_size, long_value. rewrite length_replicate. lia. Qed.

(** C4, as stated, fails: for the request INSERT "" with a value of
    65,536 bytes, [Writer] fills the vector, it does not fail. The
    length field of the value is [00 00], and [Reader] reads an empty
    value back from that vector. *)
Lemma Writer_accepts_long_value :
  65535 < std_size long_value
  /\ write_Request LittleEndian (Request.Make INSERT [] long_value) []
     = [x00; x00; x00; x00; x00] ++ long_value
  /\ fst (read_Request LittleEndian
            (place 0 ([x00; x00; x00; x00; x00] ++ long_value) (fun _ => xff))
            (buffer_of 0 ([x00; x00; x00; x00; x00] ++ long_value)))
     = Request.Make INSERT [] [].
Proof.
  split; [rewrite long_value_size; lia|]. split.
  - rewrite write_Request_app. cbn [Request.key Request.value Request.operation].
    rewrite long_value_size. reflexivity.
  - reflexivity.
Qed.

(** C4, amended. [Writer] has no failure: for every message, also one
    with a string field longer than 65,535 bytes, it appends the tag
    bytes and, for every string field, a two-byte length field followed
    by all the bytes of the string. *)
Theorem Writer_never_fails host
    (request : Request.t) (response : Response.t) (buf : list byte) :
  (exists key_len value_len : list byte,
      length key_len = 2%nat /\ length value_len = 2%nat
      /\ write_Request host request buf
         = buf ++ [operation_code_of (Request.operation request)]
               ++ (key_len ++ Request.key request)
               ++ (value_len ++ Request.value request))
  /\ (exists value_len : list byte,
      length value_len = 2%nat
      /\ write_Response host response buf
         = buf ++ [operation_code_of (Response.operation response)]
               ++ [error_code_of (Response.error response)]
               ++ (value_len ++ Response.value response)).
Proof.
  split.
  - eexists _, _. split; [|split; [|apply write_Request_app]];
      apply object_bytes_length.
  - eexists. split; [|apply write_Response_app]. apply object_bytes_length.
Qed.

(** C5, as stated, fails: [Reader] returns a message from a buffer
    that holds a whole request whose operation tag is no declared
    enumerator, and from one that holds a whole response whose error
    tag is none; every byte it reads lies inside the buffer.
    [database::Error] has no TRUNCATED, INVALID_OPERATION or
    INVALID_ERROR. *)
Lemma Reader_accepts_any_buffer :
  declared_operation (MkOperation x09) = false
  /\ read_Request LittleEndian
       (place 0 [x09; x00; x00; x00; x00] (fun _ => xff))
       (buffer_of 0 [x09; x00; x00; x00; x00])
     = (Request.Make (MkOperation x09) [] [], MkBuffer 5 0)
  /\ declared_error (MkError x63) = false
  /\ read_Response LittleEndian
       (place 0 [x00; x63; x00; x00] (fun _ => xff))
       (buffer_of 0 [x00; x63; x00; x00])
     = (Response.Make INSERT (MkError x63) [], MkBuffer 4 0).
Proof. repeat split; vm_compute; reflexivity. Qed.

Lemma object_value_1 host (b : byte) : object_value host [b] = byte_to_Z b.
Proof. destruct host; cbn; lia. Qed.

(** The bytes of a vector placed in memory are the bytes read at its
    addresses. *)
Lemma place_nth base (v : list byte) (mem : memory) (i : nat) :
  (i < length v)%nat -> place base v mem (base + i)%nat = nth i v x00.
Proof.
  intros Hi. unfold place. rewrite decide_True by lia.
  f_equal. lia.
Qed.

(** C5, amended. [Reader] checks no tag and has no INVALID_OPERATION
    or INVALID_ERROR: for every buffer that holds the tag bytes, the
    one byte [op] of a request or the two bytes [op], [err] of a
    response, whatever bytes follow them, at every address and in
    every memory, the operation of the message that [Reader] fills is
    [op] and the error of a response is [err], as they are, whether or
    not they are declared enumerators. The tag bytes are read inside
    the buffer. Nothing is said about the strings read from a buffer
    that ends in the middle of a field. *)
Theorem Reader_takes_tags_unchecked host base (mem : memory)
    (op err : byte) (rest : list byte) :
  let request_buf := op :: rest in
  let response_buf := op :: err :: rest in
  Request.operation
    (fst (read_Request host (place base request_buf mem)
                       (buffer_of base request_buf)))
  = MkOperation op
  /\ Response.operation
       (fst (read_Response host (place base response_buf mem)
                           (buffer_of base response_buf)))
     = MkOperation op
  /\ Response.error
       (fst (read_Response host (place base response_buf mem)
                           (buffer_of base response_buf)))
     = MkError err.
Proof.
  intros request_buf response_buf.
  pose proof (place_nth base request_buf mem 0 ltac:(cbn; lia)) as Hreq.
  pose proof (place_nth base response_buf mem 0 ltac:(cbn; lia)) as Hop.
  pose proof (place_nth base response_buf mem 1 ltac:(cbn; lia)) as Herr.
  rewrite Nat.add_0_r in Hreq, Hop. cbn [nth] in Hreq, Hop, Herr.
  unfold read_Request, read_Response, Reader_scalar.
  repeat match goal with
         | |- context [Reader_string ?h ?m ?b] => destruct (Reader_string h m b)
         end.
  cbn [fst Request.operation Response.operation Response.error load seq map
       buffer_of cb_data].
  rewrite !object_value_1, !ntoh_1, !byte_of_to_Z.
  assert (cb_data (buffer_of base response_buf +ₚ 1) = (base + 1)%nat)
    as -> by reflexivity.
  now rewrite Hreq, Hop, Herr.
Qed.

(** ** The store *)

Lemma c_str_no_NUL (s : list byte) : x00 ∉ c_str s.
Proof.
  induction s as [|b s IH]; cbn; [apply not_elem_of_nil|].
  case_decide; [apply not_elem_of_nil|].
  rewrite not_elem_of_cons. auto.
Qed.

Lemma c_str_id (s : list byte) : x00 ∉ s -> c_str s = s.
Proof.
  induction s as [|b s IH]; cbn; [done|].
  rewrite not_elem_of_cons. intros [Hb Hs].
  rewrite decide_False by done. now rewrite IH.
Qed.

Lemma c_str_idemp (s : list byte) : c_str (c_str s) = c_str s.
Proof. apply c_str_id, c_str_no_NUL. Qed.

Lemma c_str_split (s : list byte) :
  c_str s = s \/ exists rest, s = c_str s ++ x00 :: rest.
Proof.
  induction s as [|b s IH]; cbn; [now left|].
  case_decide as Hb.
  - right. exists s. now rewrite Hb.
  - destruct IH as [->|[rest Hrest]]; [now left|].
    right. exists rest. cbn. now rewrite <- Hrest.
Qed.

(** A key [p ++ x00 :: r] has the C string of [p], whatever follows the
    NUL byte. *)
Lemma c_str_app_NUL (p r : list byte) : c_str (p ++ x00 :: r) = c_str p.
Proof.
  induction p as [|b p IH]; cbn; [done|].
  case_decide; [done|]. now rewrite IH.
Qed.

Lemma c_str_prefix (s : list byte) : c_str s `prefix_of` s.
Proof.
  destruct (c_str_split s) as [->|[rest Hrest]]; [done|].
  now exists (x00 :: rest).
Qed.

Section Store.
Implicit Types (db : gmap (list byte) (list byte)) (k v out : list byte).

Lemma find_lookup db key :
  Database.find db key = Database.MkItem key <$> db !! key.
Proof. reflexivity. Qed.

Lemma modify_value db key old value :
  db !! key = Some old ->
  Database.modify (Database.MkItem key old)
    (fun i => Database.MkItem (Database.item_key i) value) db
  = <[key := value]> db.
Proof.
  intros _. unfold Database.modify. cbn.
  now rewrite lookup_delete_eq, insert_delete_eq.
Qed.

Lemma ins_lookup k v db :
  Database.ins k v db
  = match db !! c_str k with
    | Some _ => (INSERT_KEY_ALREADY_EXISTS, db)
    | None => (NONE, <[c_str k := c_str v]> db)
    end.
Proof.
  unfold Database.ins, Database.find, Database.emplace. cbn.
  now destruct (db !! c_str k).
Qed.

Lemma upd_lookup k v db :
  Database.upd k v db
  = match db !! c_str k with
    | None => (UPDATE_KEY_NOT_FOUND, db)
    | Some old =>
        if decide (old = c_str v) then (UPDATE_VALUE_ALREADY_EXISTS, db)
        else (NONE, <[c_str k := c_str v]> db)
    end.
Proof.
  unfold Database.upd, Database.find.
  destruct (db !! c_str k) as [old|] eqn:Hold; cbn; [|done].
  case_decide; [done|]. now rewrite (modify_value db _ old).
Qed.

Lemma del_lookup k db :
  Database.del k db
  = match db !! c_str k with
    | None => (DELETE_KEY_NOT_FOUND, db)
    | Some _ => (NONE, delete (c_str k) db)
    end.
Proof.
  unfold Database.del, Database.find, Database.erase.
  now destruct (db !! c_str k).
Qed.

Lemma get_lookup k out db :
  Database.get k out db
  = match db !! c_str k with
    | None => ((GET_KEY_NOT_FOUND, out), db)
    | Some value => ((NONE, value), db)
    end.
Proof.
  unfold Database.get, Database.find. now destruct (db !! c_str k).
Qed.
End Store.

(** C1, as stated, fails for a key with an embedded NUL byte. In the
    store that holds only ("a", "1") there is no item with key "a\0b",
    yet [ins] of that key reports INSERT_KEY_ALREADY_EXISTS and [get]
    of it yields (NONE, "1"); and [ins "a\0b" "2"] into the empty store
    inserts an item whose key is "a". *)
Lemma store_truncates_key_at_NUL :
  let db : gmap (list byte) (list byte) := {[ [x61] := [x31] ]} in
  db !! key_a_NUL_b = None
  /\ Database.ins key_a_NUL_b [x32] db = (INSERT_KEY_ALREADY_EXISTS, db)
  /\ Database.get key_a_NUL_b [] db = ((NONE, [x31]), db)
  /\ Database.ins key_a_NUL_b [x32] ∅ = (NONE, {[ [x61] := [x32] ]}).
Proof. repeat split; vm_compute; reflexivity. Qed.

(** C1, amended. Every operation works on the C strings of its
    arguments: with [key] the bytes of [k] before its first NUL byte and
    [value] those of [v] ([k] and [v] themselves when they hold no NUL
    byte, [c_str_id]), [ins] returns INSERT_KEY_ALREADY_EXISTS when an
    item with [key] exists and otherwise inserts [(key, value)] and
    returns NONE; [upd] returns UPDATE_KEY_NOT_FOUND when no item with
    [key] exists, UPDATE_VALUE_ALREADY_EXISTS when the stored value
    equals [value], and otherwise replaces the stored value with [value]
    and returns NONE; [del] removes the item with [key] and returns
    NONE, or returns DELETE_KEY_NOT_FOUND; [get] yields NONE and the
    stored value, or GET_KEY_NOT_FOUND and the caller's value as it was,
    which is the empty string that [Session::handleRequest] passes. *)
Theorem Database_operations (db : gmap (list byte) (list byte))
    (k v out : list byte) :
  let key := c_str k in
  let value := c_str v in
  Database.ins k v db
  = match db !! key with
    | Some _ => (INSERT_KEY_ALREADY_EXISTS, db)
    | None => (NONE, <[key := value]> db)
    end
  /\ Database.upd k v db
     = match db !! key with
       | None => (UPDATE_KEY_NOT_FOUND, db)
       | Some stored =>
           if decide (stored = value) then (UPDATE_VALUE_ALREADY_EXISTS, db)
           else (NONE, <[key := value]> db)
       end
  /\ Database.del k db
     = match db !! key with
       | None => (DELETE_KEY_NOT_FOUND, db)
       | Some _ => (NONE, delete key db)
       end
  /\ Database.get k out db
     = match db !! key with
       | None => ((GET_KEY_NOT_FOUND, out), db)
       | Some stored => ((NONE, stored), db)
       end
  /\ Database.get k [] db
     = match db !! key with
       | None => ((GET_KEY_NOT_FOUND, []), db)
       | Some stored => ((NONE, stored), db)
       end.
Proof.
  intros key value.
  split; [apply ins_lookup|]. split; [apply upd_lookup|].
  split; [apply del_lookup|]. split; apply get_lookup.
Qed.

(** C6. For every call of [ins], [upd], [del] or [get] on every
    container: when the call returns an error other than NONE, the
    container after the call is the container before it. *)
Theorem error_leaves_store_unchanged (c : store_call)
    (db : gmap (list byte) (list byte)) :
  fst (store_run c db) <> NONE ->
  snd (store_run c db) = db.
Proof.
  destruct c as [k v|k v|k|k out]; cbn [store_run].
  - rewrite ins_lookup. now destruct (db !! c_str k).
  - rewrite upd_lookup. destruct (db !! c_str k); [|done].
    now case_decide.
  - rewrite del_lookup. now destruct (db !! c_str k).
  - rewrite get_lookup. now destruct (db !! c_str k).
Qed.

Lemma error_leaves_store_unchanged_witness :
  let db : gmap (list byte) (list byte) := {[ [x61] := [x31] ]} in
  fst (store_run (Ins [x61] [x32]) db) = INSERT_KEY_ALREADY_EXISTS
  /\ snd (store_run (Ins [x61] [x32]) db) = db.
Proof.
  split; [vm_compute; reflexivity|].
  apply (error_leaves_store_unchanged (Ins [x61] [x32])).
  vm_compute. discriminate.
Defined.

(** C7, as stated, fails for a value with an embedded NUL byte: key "a"
    and value "1\0" "2" are within the length limits, the empty store
    has no item of key "a" and [ins] succeeds, but [get] then returns
    "1", not the value that was passed to [ins]. *)
Lemma get_after_ins_truncated_value :
  isValidKey [x61] = true
  /\ isValidValue value_1_NUL_2 = true
  /\ (∅ : gmap (list byte) (list byte)) !! [x61] = None
  /\ fst (Database.ins [x61] value_1_NUL_2 ∅) = NONE
  /\ fst (Database.get [x61] [] (snd (Database.ins [x61] value_1_NUL_2 ∅)))
     = (NONE, [x31])
  /\ [x31] <> value_1_NUL_2.
Proof. repeat split; vm_compute; (reflexivity || discriminate). Qed.

(** C7, amended. For every key [k] and value [v], from any container:
    a successful [ins k v] followed by [get k] returns NONE and the
    bytes of [v] before its first NUL byte, which is [v] when [v] holds
    no NUL byte. *)
Theorem get_after_ins (db : gmap (list byte) (list byte))
    (k v out : list byte) :
  fst (Database.ins k v db) = NONE ->
  fst (Database.get k out (snd (Database.ins k v db))) = (NONE, c_str v).
Proof.
  rewrite ins_lookup, get_lookup.
  destruct (db !! c_str k) eqn:Hk; cbn [fst snd]; [done|].
  intros _. now rewrite lookup_insert_eq.
Qed.

Lemma get_after_ins_witness :
  fst (Database.ins [x61] value_1_NUL_2 ∅) = NONE
  /\ fst (Database.get [x61] [] (snd (Database.ins [x61] value_1_NUL_2 ∅)))
     = (NONE, c_str value_1_NUL_2).
Proof.
  split; [vm_compute; reflexivity|].
  apply (get_after_ins ∅ [x61] value_1_NUL_2 []). vm_compute. reflexivity.
Defined.

(** C10. The store sees only the C strings of its arguments. Two keys
    that agree before their first NUL byte, and two values that do,
    (they differ only from an embedded NUL byte on) are the same
    argument to [ins], [upd], [del] and [get]; the value that a
    successful [ins] or [upd] leaves stored under the key is the prefix
    of the value passed, up to its first NUL byte, and holds no NUL
    byte. *)
Theorem store_sees_C_strings (db : gmap (list byte) (list byte))
    (k1 k2 v1 v2 out : list byte) :
  c_str k1 = c_str k2 ->
  c_str v1 = c_str v2 ->
  Database.ins k1 v1 db = Database.ins k2 v2 db
  /\ Database.upd k1 v1 db = Database.upd k2 v2 db
  /\ Database.del k1 db = Database.del k2 db
  /\ Database.get k1 out db = Database.get k2 out db
  /\ snd (Database.ins k1 v1 db) !! c_str k1
     = (if decide (fst (Database.ins k1 v1 db) = NONE)
        then Some (c_str v1) else db !! c_str k1)
  /\ snd (Database.upd k1 v1 db) !! c_str k1
     = (if decide (fst (Database.upd k1 v1 db) = NONE)
        then Some (c_str v1) else db !! c_str k1)
  /\ (x00 ∉ c_str v1)
  /\ (c_str v1 = v1 \/ exists rest, v1 = c_str v1 ++ x00 :: rest).
Proof.
  intros Hk Hv.
  rewrite !ins_lookup, !upd_lookup, !del_lookup, !get_lookup, <- Hk, <- Hv.
  repeat split; try done.
  - destruct (db !! c_str k1) eqn:Hl; cbn [fst snd].
    + now rewrite decide_False.
    + now rewrite decide_True, lookup_insert_eq.
  - destruct (db !! c_str k1) eqn:Hl; cbn [fst snd].
    + case_decide; cbn [fst snd].
      * now rewrite decide_False.
      * now rewrite decide_True, lookup_insert_eq.
    + now rewrite decide_False.
  - apply c_str_no_NUL.
  - apply c_str_split.
Qed.

Lemma store_sees_C_strings_witness :
  let db : gmap (list byte) (list byte) := {[ [x61] := [x31] ]} in
  Database.get key_a_NUL_b [] db = Database.get [x61; x00; x63] [] db
  /\ Database.upd key_a_NUL_b value_1_NUL_2 db
     = Database.upd [x61; x00; x63] [x31] db.
Proof.
  pose proof (store_sees_C_strings {[ [x61] := [x31] ]}
                key_a_NUL_b [x61; x00; x63] value_1_NUL_2 [x31] []
                ltac:(reflexivity) ltac:(reflexivity)) as H.
  split; apply H.
Defined.

(** ** The statistics *)

(** C9. For every operation [op] and error [err], [Stats::update]
    increments, as a [size_t], the failed counter of [op] when
    [err <> NONE] and leaves its successful counter, and increments the
    successful counter and leaves the failed one otherwise; the
    counters of the other operations stay; total-items is incremented
    exactly when [op = INSERT] and [err = NONE], decremented exactly
    when [op = DELETE] and [err = NONE], and unchanged otherwise, so
    for every UPDATE and GET. *)
Theorem Stats_update_counters (op : Operation) (err : Error) (s : Stats.t) :
  let s' := Stats.update op err s in
  let before := Stats.at_operation (Stats.operationStats_ s) op in
  let after := Stats.at_operation (Stats.operationStats_ s') op in
  Stats.failed after
  = (if decide (err = NONE) then Stats.failed before
     else Stats.incr (Stats.failed before))
  /\ Stats.successful after
     = (if decide (err = NONE) then Stats.incr (Stats.successful before)
        else Stats.successful before)
  /\ Stats.totalItemsInDb_ s'
     = (if decide (op = INSERT /\ err = NONE)
        then Stats.incr (Stats.totalItemsInDb_ s)
        else if decide (op = DELETE /\ err = NONE)
             then Stats.decr (Stats.totalItemsInDb_ s)
             else Stats.totalItemsInDb_ s)
  /\ Stats.totalItemsInDb_ (Stats.update UPDATE err s) = Stats.totalItemsInDb_ s
  /\ Stats.totalItemsInDb_ (Stats.update GET err s) = Stats.totalItemsInDb_ s
  /\ (forall other, other <> op ->
        Stats.at_operation (Stats.operationStats_ s') other
        = Stats.at_operation (Stats.operationStats_ s) other).
Proof.
  intros s' before after. subst s' before after.
  unfold Stats.update, Stats.at_operation. cbn [Stats.operationStats_
    Stats.totalItemsInDb_].
  rewrite lookup_insert_eq. cbn [default from_option id].
  repeat split;
    try (intros other Hother; now rewrite lookup_insert_ne);
    repeat case_bool_decide; repeat case_decide;
    cbn [negb andb Stats.failed Stats.successful];
    try done; exfalso; intuition (subst; try discriminate; congruence).
Qed.

(** ** The client *)

(** C8. For every request whose key is longer than 1024 bytes,
    [Client::send] throws the [std::invalid_argument] of the key
    length, and for one whose key is within the limit and whose value is
    longer than 1,048,576 bytes, that of the value length; it throws
    with the client as it was: the remembered endpoint, the connection
    flag and the socket, on which no connect, write, read or close has
    been made. *)
Theorem send_rejects_before_any_effect host (net : Client.Network)
    (endpoint_ : Client.endpoint) (request : Request.t)
    (response : Response.t) (c : Client.t) :
  1024 < std_size (Request.key request)
  \/ 1048576 < std_size (Request.value request) ->
  Client.send host net endpoint_ request response c
  = (Client.Throws
       (Client.invalid_argument
          (if decide (1024 < std_size (Request.key request))
           then KEY_exceeds else VALUE_exceeds)),
     c).
Proof.
  intros Hlen. unfold Client.send, isValidKey, isValidValue,
    MAX_KEY_LENGTH, MAX_VALUE_LENGTH.
  destruct (Z.leb_spec (std_size (Request.key request)) 1024) as [Hk|Hk].
  - rewrite decide_False by lia.
    destruct (Z.leb_spec (std_size (Request.value request)) 1048576); [lia|].
    reflexivity.
  - rewrite decide_True by lia. reflexivity.
Qed.

Lemma send_rejects_before_any_effect_witness :
  Client.send LittleEndian silent (1%N, 80%N)
    (Request.Make INSERT long_key []) a_response Client.new
  = (Client.Throws (Client.invalid_argument KEY_exceeds), Client.new).
Proof.
  apply (send_rejects_before_any_effect LittleEndian silent (1%N, 80%N)
           (Request.Make INSERT long_key []) a_response Client.new).
  left. vm_compute. reflexivity.
Defined.

(** * Further properties *)

(** ** The store: size, composition, invariant *)

Section StoreMore.
Implicit Types (db : gmap (list byte) (list byte)) (k v out : list byte).

Lemma store_run_size (c : store_call) db :
  Database.size (snd (store_run c db))
  = Database.size db
    + match c with
      | Ins _ _ => if decide (fst (store_run c db) = NONE) then 1 else 0
      | Del _ => if decide (fst (store_run c db) = NONE) then -1 else 0
      | _ => 0
      end.
Proof.
  unfold Database.size.
  destruct c as [k v|k v|k|k out]; cbn [store_run].
  - rewrite ins_lookup. destruct (db !! c_str k) eqn:Hk; cbn [fst snd].
    + rewrite decide_False by done. lia.
    + rewrite decide_True by done. rewrite map_size_insert_None by done. lia.
  - rewrite upd_lookup. destruct (db !! c_str k) eqn:Hk; cbn [fst snd]; [|lia].
    case_decide; cbn [fst snd]; [lia|].
    rewrite map_size_insert_Some by (rewrite Hk; eauto). lia.
  - rewrite del_lookup. destruct (db !! c_str k) eqn:Hk; cbn [fst snd].
    + rewrite decide_True by done.
      rewrite map_size_delete_Some by (rewrite Hk; eauto).
      assert (base.size db <> 0%nat).
      { apply map_size_non_empty_iff. intros ->. now rewrite lookup_empty in Hk. }
      lia.
    + rewrite decide_False by done. lia.
  - rewrite get_lookup. destruct (db !! c_str k); cbn [fst snd]; lia.
Qed.

(** X1. [Database::size] after a call: a successful [ins] adds one
    item, a successful [del] removes one, and every other call, [upd]
    and [get] and every call that reports an error, leaves the number
    of items. *)
Theorem size_after_call (c : store_call) db :
  Database.size (snd (store_run c db))
  = Database.size db
    + match c with
      | Ins _ _ => if decide (fst (store_run c db) = NONE) then 1 else 0
      | Del _ => if decide (fst (store_run c db) = NONE) then -1 else 0
      | _ => 0
      end.
Proof. apply store_run_size. Qed.

(** X2. A successful [ins] followed by [del] of the same key: [del]
    returns NONE and the store is again the one before the [ins];
    [get] of the key then reports GET_KEY_NOT_FOUND and leaves the
    caller's value. *)
Theorem del_undoes_ins db k v out :
  fst (Database.ins k v db) = NONE ->
  Database.del k (snd (Database.ins k v db)) = (NONE, db)
  /\ Database.get k out (snd (Database.del k (snd (Database.ins k v db))))
     = ((GET_KEY_NOT_FOUND, out), db).
Proof.
  rewrite ins_lookup. destruct (db !! c_str k) eqn:Hk; cbn [fst snd]; [done|].
  intros _.
  assert (Database.del k (<[c_str k := c_str v]> db) = (NONE, db)) as Hdel.
  { rewrite del_lookup, lookup_insert_eq, delete_insert_eq.
    now rewrite delete_id. }
  rewrite Hdel. split; [done|]. cbn [snd]. now rewrite get_lookup, Hk.
Qed.

Lemma del_undoes_ins_witness :
  Database.del [x61] (snd (Database.ins [x61] [x31] ∅)) = (NONE, ∅)
  /\ Database.get [x61] []
       (snd (Database.del [x61] (snd (Database.ins [x61] [x31] ∅))))
     = ((GET_KEY_NOT_FOUND, []), ∅).
Proof.
  apply (del_undoes_ins ∅ [x61] [x31] []). vm_compute. reflexivity.
Defined.

(** X3. A successful [upd] followed by [get] of the same key yields
    NONE and the C string of the new value; the same [upd] once more
    reports UPDATE_VALUE_ALREADY_EXISTS and changes nothing. *)
Theorem get_after_upd db k v out :
  fst (Database.upd k v db) = NONE ->
  let db' := snd (Database.upd k v db) in
  Database.get k out db' = ((NONE, c_str v), db')
  /\ Database.upd k v db' = (UPDATE_VALUE_ALREADY_EXISTS, db').
Proof.
  rewrite upd_lookup. destruct (db !! c_str k) eqn:Hk; cbn [fst snd]; [|done].
  case_decide; cbn [fst snd]; [done|]. intros _.
  rewrite get_lookup, upd_lookup, lookup_insert_eq.
  now rewrite decide_True.
Qed.

Lemma get_after_upd_witness :
  let db : gmap (list byte) (list byte) := {[ [x61] := [x31] ]} in
  let db' := snd (Database.upd [x61] [x32; x00; x33] db) in
  Database.get [x61] [] db' = ((NONE, c_str [x32; x00; x33]), db')
  /\ Database.upd [x61] [x32; x00; x33] db'
     = (UPDATE_VALUE_ALREADY_EXISTS, db').
Proof.
  intros db.
  apply (get_after_upd db [x61] [x32; x00; x33] []). vm_compute. reflexivity.
Defined.
(** X4. A call about one key leaves every other key: when the C
    strings of the two keys differ, [get] of the other key yields the
    same error and value after the call as before it. *)
Theorem call_leaves_other_keys (c : store_call) db k' out :
  c_str (call_key c) <> c_str k' ->
  fst (Database.get k' out (snd (store_run c db)))
  = fst (Database.get k' out db).
Proof.
  intros Hne. rewrite !get_lookup.
  assert (snd (store_run c db) !! c_str k' = db !! c_str k') as ->; [|
    now destruct (db !! c_str k')].
  destruct c as [k v|k v|k|k o]; cbn [store_run call_key] in *.
  - rewrite ins_lookup. destruct (db !! c_str k); cbn [snd]; [done|].
    now rewrite lookup_insert_ne.
  - rewrite upd_lookup. destruct (db !! c_str k); cbn [snd]; [|done].
    case_decide; cbn [snd]; [done|]. now rewrite lookup_insert_ne.
  - rewrite del_lookup. destruct (db !! c_str k); cbn [snd]; [|done].
    now rewrite lookup_delete_ne.
  - rewrite get_lookup. now destruct (db !! c_str k).
Qed.

Lemma call_leaves_other_keys_witness :
  let db : gmap (list byte) (list byte) :=
    <[ [x61] := [x31] ]> {[ [x62] := [x32] ]} in
  fst (Database.get [x62] [] (snd (store_run (Del [x61]) db)))
  = fst (Database.get [x62] [] db).
Proof.
  intros db. apply (call_leaves_other_keys (Del [x61]) db [x62] []).
  vm_compute. discriminate.
Defined.

Lemma store_run_C_strings (c : store_call) db :
  C_strings db -> C_strings (snd (store_run c db)).
Proof.
  intros Hdb.
  assert (forall k v, C_strings (<[c_str k := c_str v]> db)) as Hins.
  { intros k v. apply map_Forall_insert_2; [|done].
    split; apply c_str_no_NUL. }
  destruct c as [k v|k v|k|k o]; cbn [store_run].
  - rewrite ins_lookup. destruct (db !! c_str k); cbn [snd]; auto.
  - rewrite upd_lookup. destruct (db !! c_str k); cbn [snd]; auto.
    case_decide; cbn [snd]; auto.
  - rewrite del_lookup. destruct (db !! c_str k); cbn [snd]; auto.
    now apply map_Forall_delete.
  - rewrite get_lookup. destruct (db !! c_str k); cbn [snd]; auto.
Qed.

(** X5. Whatever calls are made on a store that starts empty, whatever
    bytes their keys and values hold: no stored key and no stored value
    ever holds a NUL byte. *)
Theorem stored_strings_hold_no_NUL (calls : list store_call) :
  C_strings (store_run_all calls ∅).
Proof.
  assert (forall db, C_strings db -> C_strings (store_run_all calls db)) as H.
  { induction calls as [|c calls IH]; intros db Hdb; [done|].
    cbn [store_run_all]. now apply IH, store_run_C_strings. }
  apply H, map_Forall_empty.
Qed.

(** X6. After a successful [del] the key is gone for every operation:
    [get], [upd] and [del] of it report their not-found errors and
    leave the store, and [ins] of it succeeds. *)
Theorem key_gone_after_del db k v out :
  fst (Database.del k db) = NONE ->
  let db' := snd (Database.del k db) in
  Database.get k out db' = ((GET_KEY_NOT_FOUND, out), db')
  /\ Database.upd k v db' = (UPDATE_KEY_NOT_FOUND, db')
  /\ Database.del k db' = (DELETE_KEY_NOT_FOUND, db')
  /\ fst (Database.ins k v db') = NONE.
Proof.
  rewrite del_lookup. destruct (db !! c_str k) eqn:Hk; cbn [fst snd]; [|done].
  intros _. rewrite get_lookup, upd_lookup, del_lookup, ins_lookup.
  now rewrite !lookup_delete_eq.
Qed.

Lemma key_gone_after_del_witness :
  let db' := snd (Database.del key_a_NUL_b {[ [x61] := [x31] ]}) in
  Database.get key_a_NUL_b [] db' = ((GET_KEY_NOT_FOUND, []), db')
  /\ Database.upd key_a_NUL_b [x32] db' = (UPDATE_KEY_NOT_FOUND, db')
  /\ Database.del key_a_NUL_b db' = (DELETE_KEY_NOT_FOUND, db')
  /\ fst (Database.ins key_a_NUL_b [x32] db') = NONE.
Proof.
  apply (key_gone_after_del {[ [x61] := [x31] ]} key_a_NUL_b [x32] []).
  vm_compute. reflexivity.
Defined.

(** X7. After a successful [ins], a second [ins] of the same key,
    with whatever value, reports INSERT_KEY_ALREADY_EXISTS and leaves
    the store, so the first value stays. *)
Theorem second_ins_refused db k v v' :
  fst (Database.ins k v db) = NONE ->
  let db' := snd (Database.ins k v db) in
  Database.ins k v' db' = (INSERT_KEY_ALREADY_EXISTS, db')
  /\ db' !! c_str k = Some (c_str v).
Proof.
  rewrite ins_lookup. destruct (db !! c_str k) eqn:Hk; cbn [fst snd]; [done|].
  intros _. now rewrite ins_lookup, lookup_insert_eq.
Qed.

Lemma second_ins_refused_witness :
  let db' := snd (Database.ins [x61] [x31] ∅) in
  Database.ins [x61] [x32] db' = (INSERT_KEY_ALREADY_EXISTS, db')
  /\ db' !! c_str [x61] = Some (c_str [x31]).
Proof.
  apply (second_ins_refused ∅ [x61] [x31] [x32]). vm_compute. reflexivity.
Defined.
End StoreMore.

(** ** The names of the enumerators *)

(** X8. [operationToString] and [errorToString] return a name exactly
    for the declared enumerators; for every other value of the
    underlying byte they throw [std::invalid_argument]. *)
Theorem names_exactly_for_declared (o : Operation) (e : Error) :
  returned (operationToString o) = declared_operation o
  /\ returned (errorToString e) = declared_error e
  /\ (operationToString o
      = Client.Throws (Client.invalid_argument "got unknown database::Operation")
      \/ declared_operation o = true)
  /\ (errorToString e
      = Client.Throws (Client.invalid_argument "got unknown database::Error")
      \/ declared_error e = true).
Proof.
  destruct o as [b], e as [b'].
  split; [destruct b; reflexivity|]. split; [destruct b'; reflexivity|].
  split.
  - destruct b; first [left; reflexivity | right; reflexivity].
  - destruct b'; first [left; reflexivity | right; reflexivity].
Qed.

Lemma operationToString_declared (o : Operation) (name : string) :
  operationToString o = Client.Returns name ->
  o ∈ [INSERT; UPDATE; DELETE; GET].
Proof.
  destruct o as [b]. destruct b; try discriminate; intros _;
    apply (bool_decide_unpack _); vm_compute; exact I.
Qed.

(** X9. [lexical_cast<Operation>] inverts [operationToString]: the name
    of a declared operation is cast back to that operation, and so are
    its first letter and its decimal code; and whatever string is
    cast, the operation that results is a declared one. *)
Theorem lexical_cast_inverts_operationToString (o : Operation) (name s : string) :
  operationToString o = Client.Returns name ->
  lexical_cast_Operation name = Some o
  /\ lexical_cast_Operation (String.substring 0 1 name) = Some o
  /\ lexical_cast_Operation (Client.to_string (byte_to_Z (operation_code_of o)))
     = Some o
  /\ (lexical_cast_Operation s = None
      \/ exists o', lexical_cast_Operation s = Some o'
                    /\ declared_operation o' = true).
Proof.
  intros Hname. split; [|split; [|split]].
  - apply operationToString_declared in Hname as Ho.
    rewrite !elem_of_cons, elem_of_nil in Ho.
    destruct Ho as [->|[->|[->|[->|[]]]]];
      injection Hname as <-; reflexivity.
  - apply operationToString_declared in Hname as Ho.
    rewrite !elem_of_cons, elem_of_nil in Ho.
    destruct Ho as [->|[->|[->|[->|[]]]]];
      injection Hname as <-; reflexivity.
  - apply operationToString_declared in Hname as Ho.
    rewrite !elem_of_cons, elem_of_nil in Ho.
    destruct Ho as [->|[->|[->|[->|[]]]]]; reflexivity.
  - unfold lexical_cast_Operation.
    assert (Forall (fun p => declared_operation (snd p) = true)
                   LEXICAL_OPERATIONS_MAP) as Hall.
    { repeat constructor. }
    induction Hall as [|[s' o'] m Ho' _ IH]; cbn [unordered_map_find].
    + now left.
    + case_decide; [right; eauto | exact IH].
Qed.

Lemma lexical_cast_inverts_operationToString_witness :
  lexical_cast_Operation "DELETE" = Some DELETE
  /\ lexical_cast_Operation (String.substring 0 1 "DELETE") = Some DELETE
  /\ lexical_cast_Operation
       (Client.to_string (byte_to_Z (operation_code_of DELETE)))
     = Some DELETE
  /\ (lexical_cast_Operation "delete" = None
      \/ exists o', lexical_cast_Operation "delete" = Some o'
                    /\ declared_operation o' = true).
Proof.
  apply (lexical_cast_inverts_operationToString DELETE "DELETE" "delete").
  reflexivity.
Defined.

Lemma printRequest_returned (request : Request.t) :
  returned (printRequest request)
  = declared_operation (Request.operation request).
Proof. destruct request as [[b] k v]. destruct b; reflexivity. Qed.

Lemma operationToString_undeclared (o : Operation) :
  declared_operation o = false ->
  operationToString o
  = Client.Throws (Client.invalid_argument "got unknown database::Operation").
Proof. destruct o as [b]. destruct b; (reflexivity || discriminate). Qed.

(** X10. [printRequest] prints its line exactly when the operation of
    the request is a declared enumerator, and [printResponse] exactly
    when the operation and the error of the response both are;
    otherwise they throw [std::invalid_argument] from the name lookup.
    The keys and values make no difference. *)
Theorem printers_throw_on_undeclared (request : Request.t) (response : Response.t) :
  returned (printRequest request)
  = declared_operation (Request.operation request)
  /\ returned (printResponse response)
     = declared_operation (Response.operation response)
       && declared_error (Response.error response).
Proof.
  split; [apply printRequest_returned|].
  destruct response as [[b'] [e] v'].
  destruct b'; try reflexivity; destruct e; reflexivity.
Qed.

(** ** The session: handling a request *)

(** Decides the equalities between enumerators in the goal. *)
Ltac decide_enumerators :=
  repeat match goal with
         | |- context [decide (?a = ?b)] =>
             destruct (decide (a = b)) as [?Heq|?Hne];
             [try (exfalso; discriminate) | try (exfalso; congruence)]
         end.

Lemma Stats_update_total (op : Operation) (err : Error) (st : Stats.t) :
  Stats.totalItemsInDb_ (Stats.update op err st)
  = (if decide (op = INSERT /\ err = NONE)
     then Stats.incr (Stats.totalItemsInDb_ st)
     else if decide (op = DELETE /\ err = NONE)
          then Stats.decr (Stats.totalItemsInDb_ st)
          else Stats.totalItemsInDb_ st).
Proof.
  unfold Stats.update. cbn [Stats.totalItemsInDb_].
  repeat case_bool_decide; repeat case_decide; cbn [negb andb];
    try done; exfalso; intuition (subst; try discriminate; congruence).
Qed.

Lemma incr_wrap (x : Z) :
  Stats.incr (Stats.size_t_wrap x) = Stats.size_t_wrap (x + 1).
Proof. unfold Stats.incr, Stats.size_t_wrap. now rewrite Zplus_mod_idemp_l. Qed.

Lemma decr_wrap (x : Z) :
  Stats.decr (Stats.size_t_wrap x) = Stats.size_t_wrap (x - 1).
Proof. unfold Stats.decr, Stats.size_t_wrap. now rewrite Zminus_mod_idemp_l. Qed.

(** What [handleRequest] does for a declared operation, in terms of the
    call of the store. *)
Lemma handleRequest_declared indeterminate (s : Session.t)
    (shared : Session.Shared) :
  declared_operation (Request.operation (Session.request_ s)) = true ->
  let request := Session.request_ s in
  let op := Request.operation request in
  let c := call_of request in
  let error := fst (store_run c (Session.db_ shared)) in
  let value :=
    if decide (op = GET)
    then snd (fst (Database.get (Request.key request) []
                                (Session.db_ shared)))
    else [] in
  Session.handleRequest indeterminate s shared
  = (Session.Make (Session.bufSize_ s) (Session.buf_ s) request
       (Response.Make op error value),
     Session.MkShared (snd (store_run c (Session.db_ shared)))
       (Stats.update op error (Session.stats_ shared))).
Proof.
  intros Hdecl. cbv zeta. unfold Session.handleRequest, call_of.
  destruct (Session.request_ s) as [op k v].
  cbn [Request.operation Request.key Request.value] in *.
  apply bool_decide_eq_true in Hdecl.
  rewrite !elem_of_cons, elem_of_nil in Hdecl.
  destruct Hdecl as [->|[->|[->|[->|[]]]]]; decide_enumerators;
    cbn [store_run].
  - now destruct (Database.ins k v (Session.db_ shared)).
  - now destruct (Database.upd k v (Session.db_ shared)).
  - now destruct (Database.del k (Session.db_ shared)).
  - now destruct (Database.get k [] (Session.db_ shared)) as [[e w] d].
Qed.

Lemma handleRequest_total indeterminate (s : Session.t)
    (shared : Session.Shared) :
  Stats.totalItemsInDb_ (Session.stats_ shared)
  = Stats.size_t_wrap (Database.size (Session.db_ shared)) ->
  let shared' := snd (Session.handleRequest indeterminate s shared) in
  Stats.totalItemsInDb_ (Session.stats_ shared')
  = Stats.size_t_wrap (Database.size (Session.db_ shared')).
Proof.
  intros Htotal.
  destruct (declared_operation (Request.operation (Session.request_ s)))
    eqn:Hdecl.
  - cbv zeta. rewrite handleRequest_declared by done.
    cbn [snd Session.stats_ Session.db_].
    rewrite Stats_update_total, store_run_size, Htotal.
    unfold call_of.
    destruct (Session.request_ s) as [op k v].
    cbn [Request.operation Request.key Request.value] in *.
    apply bool_decide_eq_true in Hdecl.
    rewrite !elem_of_cons, elem_of_nil in Hdecl.
    destruct Hdecl as [->|[->|[->|[->|[]]]]]; decide_enumerators;
      repeat case_decide; rewrite ?incr_wrap, ?decr_wrap, ?Z.add_0_r;
      try done; try (f_equal; lia);
      exfalso; intuition (subst; try discriminate; congruence).
  - apply bool_decide_eq_false in Hdecl.
    rewrite !elem_of_cons, elem_of_nil in Hdecl.
    cbv zeta. unfold Session.handleRequest.
    repeat (rewrite decide_False by tauto).
    cbn [snd Session.stats_ Session.db_].
    rewrite Stats_update_total.
    rewrite !decide_False by tauto. done.
Qed.

(** X11. The total-items counter follows the store. When total-items
    is [Database::size], as a [size_t], before a session handles a
    list of requests, whatever their operations, keys and values, it
    is [Database::size] after them. *)
Theorem total_items_tracks_size indeterminate (requests : list Request.t)
    (s : Session.t) (shared : Session.Shared) :
  Stats.totalItemsInDb_ (Session.stats_ shared)
  = Stats.size_t_wrap (Database.size (Session.db_ shared)) ->
  let shared' := snd (Session.handle_all indeterminate requests s shared) in
  Stats.totalItemsInDb_ (Session.stats_ shared')
  = Stats.size_t_wrap (Database.size (Session.db_ shared')).
Proof.
  revert s shared.
  induction requests as [|request rest IH]; intros s shared Htotal; [done|].
  cbn [Session.handle_all].
  pose proof (handleRequest_total indeterminate
    (Session.Make (Session.bufSize_ s) (Session.buf_ s) request
                  (Session.response_ s)) shared Htotal) as Hstep.
  destruct (Session.handleRequest indeterminate _ shared) as [s1 shared1].
  now apply IH.
Qed.

Lemma total_items_tracks_size_witness :
  let shared' :=
    snd (Session.handle_all NONE some_requests Session.new fresh_shared) in
  Stats.totalItemsInDb_ (Session.stats_ shared')
  = Stats.size_t_wrap (Database.size (Session.db_ shared')).
Proof.
  apply (total_items_tracks_size NONE some_requests Session.new fresh_shared).
  vm_compute. reflexivity.
Defined.



(** X13. An UPDATE that carries the value the key already has, up to
    the first NUL byte, is answered UPDATE_VALUE_ALREADY_EXISTS, leaves
    the store, and is counted as a failed UPDATE, not as a successful
    one. *)
Theorem unchanged_update_counts_as_failed indeterminate (s : Session.t)
    (shared : Session.Shared) (k v : list byte) :
  Session.request_ s = Request.Make UPDATE k v ->
  Session.db_ shared !! c_str k = Some (c_str v) ->
  let answered := Session.handleRequest indeterminate s shared in
  let before :=
    Stats.at_operation (Stats.operationStats_ (Session.stats_ shared)) UPDATE in
  let after :=
    Stats.at_operation
      (Stats.operationStats_ (Session.stats_ (snd answered))) UPDATE in
  Session.response_ (fst answered)
  = Response.Make UPDATE UPDATE_VALUE_ALREADY_EXISTS []
  /\ Session.db_ (snd answered) = Session.db_ shared
  /\ Stats.failed after = Stats.incr (Stats.failed before)
  /\ Stats.successful after = Stats.successful before.
Proof.
  intros Hreq Hk. cbv zeta.
  rewrite handleRequest_declared by now rewrite Hreq.
  rewrite Hreq. unfold call_of.
  cbn [Request.operation Request.key Request.value]. decide_enumerators.
  cbn [store_run fst snd Session.response_ Session.db_ Session.stats_].
  rewrite upd_lookup, Hk, decide_True by done. cbn [fst snd].
  repeat split.
  all: unfold Stats.update, Stats.at_operation; cbn [Stats.operationStats_];
    rewrite lookup_insert_eq; reflexivity.
Qed.

Lemma unchanged_update_counts_as_failed_witness :
  let s := Session.Make 0 [] (Request.Make UPDATE [x61] value_1_NUL_2)
             (Response.Make INSERT NONE []) in
  let shared := Session.MkShared {[ [x61] := [x31] ]} (Stats.Make 1 ∅) in
  let answered := Session.handleRequest NONE s shared in
  Session.response_ (fst answered)
  = Response.Make UPDATE UPDATE_VALUE_ALREADY_EXISTS []
  /\ Session.db_ (snd answered) = Session.db_ shared
  /\ Stats.failed
       (Stats.at_operation
          (Stats.operationStats_ (Session.stats_ (snd answered))) UPDATE)
     = Stats.incr
         (Stats.failed
            (Stats.at_operation
               (Stats.operationStats_ (Session.stats_ shared)) UPDATE))
  /\ Stats.successful
       (Stats.at_operation
          (Stats.operationStats_ (Session.stats_ (snd answered))) UPDATE)
     = Stats.successful
         (Stats.at_operation
            (Stats.operationStats_ (Session.stats_ shared)) UPDATE).
Proof.
  intros s shared.
  apply (unchanged_update_counts_as_failed NONE s shared [x61] value_1_NUL_2);
    reflexivity.
Defined.

(** ** The session: from the received body to the answer *)

Lemma resize_length (buf : list byte) (n : nat) : length (resize buf n) = n.
Proof. unfold resize. rewrite length_app, length_take, length_replicate. lia. Qed.

Lemma memcpy_at_full (buf src : list byte) :
  length buf = length src -> memcpy_at buf 0 src = src.
Proof.
  intros Hlen. unfold memcpy_at. cbn [take Nat.add app].
  rewrite drop_ge by lia. apply app_nil_r.
Qed.

Lemma read_Request_operation host (mem : memory) (buf : const_buffer) :
  Request.operation (fst (read_Request host mem buf))
  = MkOperation (mem (cb_data buf)).
Proof.
  unfold read_Request, Reader_scalar.
  repeat match goal with
         | |- context [Reader_string ?h ?m ?b] => destruct (Reader_string h m b)
         end.
  cbn [fst Request.operation load seq map].
  now rewrite object_value_1, ntoh_1, byte_of_to_Z.
Qed.

(** X14. A received body whose first byte is no declared operation
    never reaches the store: [printRequest] throws
    [std::invalid_argument] out of the completion handler before
    [handleRequest] is called, so the store and the statistics stay as
    they were and nothing is written back. *)
Theorem undeclared_operation_never_reaches_store host (mem : memory) (base : nat)
    indeterminate (b : byte) (data : list byte)
    (s : Session.t) (shared : Session.Shared) :
  Session.buf_ s <> [] ->
  declared_operation (MkOperation b) = false ->
  fst (Session.on_body host mem base indeterminate (b :: data) s shared)
  = Client.Throws (Client.invalid_argument "got unknown database::Operation")
  /\ snd (snd (Session.on_body host mem base indeterminate (b :: data) s shared))
     = shared.
Proof.
  intros Hbuf Hb. unfold Session.on_body.
  destruct (Session.buf_ s) as [|b0 rest] eqn:Hs; [done|].
  set (buf := memcpy_at _ 0 _).
  assert (exists tl, buf = b :: tl) as [tl Htl] by (eexists; reflexivity).
  clearbody buf. subst buf.
  set (buf := b :: tl).
  pose proof (read_Request_operation host (place base buf mem)
                (buffer_of base buf)) as Hop.
  destruct (read_Request host (place base buf mem) (buffer_of base buf))
    as [request left].
  cbn [fst buffer_of cb_data] in Hop.
  assert (place base buf mem base = b) as Hplace.
  { unfold place. rewrite decide_True by (subst buf; cbn [length]; lia).
    now rewrite Nat.sub_diag. }
  rewrite Hplace in Hop.
  unfold printRequest. rewrite Hop, operationToString_undeclared by done.
  now split.
Qed.

Lemma undeclared_operation_never_reaches_store_witness :
  let s := Session.on_size LittleEndian
             [x05; x00; x00; x00; x00; x00; x00; x00] Session.new in
  let data := [x09; x00; x00; x00; x00] in
  fst (Session.on_body LittleEndian (fun _ => xff) 64 NONE data s fresh_shared)
  = Client.Throws (Client.invalid_argument "got unknown database::Operation")
  /\ snd (snd (Session.on_body LittleEndian (fun _ => xff) 64 NONE data s
                 fresh_shared))
     = fresh_shared.
Proof.
  intros s data.
  apply (undeclared_operation_never_reaches_store LittleEndian (fun _ => xff) 64
           NONE x09 [x00; x00; x00; x00] s fresh_shared).
  - vm_compute. discriminate.
  - reflexivity.
Defined.

Lemma on_size_exact host (v : Z) (s : Session.t) :
  0 <= v < 2 ^ 64 ->
  Session.on_size host (object_bytes host 8 v) s
  = Session.Make v (resize (Session.buf_ s) (Z.to_nat v))
                 (Session.request_ s) (Session.response_ s).
Proof.
  intros Hv. unfold Session.on_size.
  rewrite take_ge by (rewrite object_bytes_length; lia).
  rewrite memcpy_at_full by now rewrite !object_bytes_length.
  rewrite object_value_bytes, Z.mod_small by (change (256 ^ Z.of_nat 8) with (2 ^ 64); lia).
  reflexivity.
Qed.

Lemma on_body_encoded_request host (mem : memory) (base : nat)
    indeterminate (request : Request.t)
    (s : Session.t) (shared : Session.Shared) :
  declared_operation (Request.operation request) = true ->
  std_size (Request.key request) <= 65535 ->
  std_size (Request.value request) <= 65535 ->
  let payload := write_Request host request [] in
  let arrived := Session.on_size host (object_bytes host 8 (std_size payload)) s in
  let answered :=
    Session.handleRequest indeterminate
      (Session.Make (std_size payload) payload request (Session.response_ s))
      shared in
  let answer := write_Response host (Session.response_ (fst answered)) [] in
  Session.on_body host mem base indeterminate payload arrived shared
  = (Client.Returns [object_bytes host 8 (std_size answer); answer],
     (Session.Make (std_size payload) answer request
                   (Session.response_ (fst answered)),
      snd answered)).
Proof.
  intros Hdecl Hk Hv payload arrived answered answer.
  assert (0 <= std_size payload < 2 ^ 64) as Hsize.
  { subst payload. rewrite write_Request_app. unfold std_size in *.
    rewrite !length_app, !object_bytes_length. cbn [length]. lia. }
  subst arrived. rewrite on_size_exact by done.
  unfold Session.on_body.
  cbn [Session.buf_ Session.bufSize_ Session.response_ Session.request_].
  rewrite resize_length.
  assert (Z.to_nat (std_size payload) = length payload) as -> by apply Nat2Z.id.
  rewrite firstn_all, memcpy_at_full by now rewrite resize_length.
  subst payload. rewrite read_Request_write_Request by done.
  pose proof (printRequest_returned request) as Hprint.
  rewrite Hdecl in Hprint.
  destruct (printRequest request) as [line|e]; [|discriminate].
  fold answered.
  pose proof (handleRequest_declared indeterminate
    (Session.Make (std_size (write_Request host request []))
       (write_Request host request []) request (Session.response_ s))
    shared Hdecl) as Hdone.
  cbv zeta in Hdone. fold answered in Hdone.
  destruct answered as [s' shared'] eqn:Hans.
  injection Hdone as -> ->. reflexivity.
Qed.

(** X15. A session answers what the store answers. When the size
    word and the body that arrive are those that [Writer] made, on a
    host of the session's byte order, from a
    request with a declared operation and strings of at most 65,535
    bytes, the handler hands to [async_write] the size word and the
    encoding of exactly the response that [handleRequest] gives for
    that request, and leaves the store and the statistics as
    [handleRequest] does. *)
Theorem session_answers_encoded_request host (mem : memory) (base : nat)
    indeterminate (request : Request.t)
    (s : Session.t) (shared : Session.Shared) :
  declared_operation (Request.operation request) = true ->
  std_size (Request.key request) <= 65535 ->
  std_size (Request.value request) <= 65535 ->
  let payload := write_Request host request [] in
  let arrived := Session.on_size host (object_bytes host 8 (std_size payload)) s in
  let answered :=
    Session.handleRequest indeterminate
      (Session.Make (std_size payload) payload request (Session.response_ s))
      shared in
  let answer := write_Response host (Session.response_ (fst answered)) [] in
  Session.on_body host mem base indeterminate payload arrived shared
  = (Client.Returns [object_bytes host 8 (std_size answer); answer],
     (Session.Make (std_size payload) answer request
                   (Session.response_ (fst answered)),
      snd answered)).
Proof. apply on_body_encoded_request. Qed.

Lemma session_answers_encoded_request_witness :
  let request := Request.Make GET key_a_NUL_b [] in
  let shared := Session.MkShared {[ [x61] := [x31] ]} (Stats.Make 1 ∅) in
  let payload := write_Request BigEndian request [] in
  let arrived :=
    Session.on_size BigEndian (object_bytes BigEndian 8 (std_size payload))
                    Session.new in
  let answered :=
    Session.handleRequest NONE
      (Session.Make (std_size payload) payload request
                    (Session.response_ Session.new))
      shared in
  let answer := write_Response BigEndian (Session.response_ (fst answered)) [] in
  Session.on_body BigEndian (fun _ => xff) 64 NONE payload arrived shared
  = (Client.Returns [object_bytes BigEndian 8 (std_size answer); answer],
     (Session.Make (std_size payload) answer request
                   (Session.response_ (fst answered)),
      snd answered)).
Proof.
  intros request shared.
  apply (session_answers_encoded_request BigEndian (fun _ => xff) 64 NONE
           request Session.new shared); vm_compute; (reflexivity || discriminate).
Defined.

(** ** The codec: distinct messages, over-long values *)

(** X16. Two requests with strings of at most 65,535 bytes that
    [Writer] encodes to the same bytes are the same request: the
    encoding loses nothing. *)
Theorem write_Request_injective host (r1 r2 : Request.t) :
  std_size (Request.key r1) <= 65535 ->
  std_size (Request.value r1) <= 65535 ->
  std_size (Request.key r2) <= 65535 ->
  std_size (Request.value r2) <= 65535 ->
  write_Request host r1 [] = write_Request host r2 [] ->
  r1 = r2.
Proof.
  intros Hk1 Hv1 Hk2 Hv2 Heq.
  pose proof (read_Request_write_Request host 0 (fun _ => x00) r1 Hk1 Hv1) as H1.
  pose proof (read_Request_write_Request host 0 (fun _ => x00) r2 Hk2 Hv2) as H2.
  cbv zeta in H1, H2. rewrite Heq in H1. congruence.
Qed.

Lemma write_Request_injective_witness : a_request = a_request.
Proof.
  apply (write_Request_injective LittleEndian a_request a_request);
    vm_compute; (reflexivity || discriminate).
Defined.

Section ReaderPlacedAny.
Variable host : ByteOrder.
Variables (base : nat) (mem : memory).

(** The string reader over a field of any length: the length that
    fits the two bytes decides how much is read. *)
Lemma Reader_string_placed_any (whole pre post s field : list byte) :
  let n := Z.to_nat (std_size s mod 65536) in
  field = object_bytes host 2 (std_size s mod 65536) ++ s ->
  whole = pre ++ field ++ post ->
  Reader_string host (place base whole mem) (cursor base pre (field ++ post))
  = (take n s,
     cursor base (pre ++ object_bytes host 2 (std_size s mod 65536) ++ take n s)
            (drop n s ++ post)).
Proof.
  intros n -> ->. unfold Reader_string.
  pose proof (Z.mod_pos_bound (std_size s) 65536 ltac:(lia)) as Hmod.
  assert (n <= length s)%nat as Hn.
  { subst n. unfold std_size in *.
    pose proof (Z.mod_le (Z.of_nat (length s)) 65536 ltac:(lia) ltac:(lia)). lia. }
  rewrite <- !app_assoc.
  erewrite Reader_scalar_placed; [|done|done|lia].
  fold n.
  assert (length (take n s) = n) as Hlen by (rewrite length_take; lia).
  set (lb := object_bytes host 2 (std_size s mod 65536)).
  clearbody lb n. clear Hmod Hn.
  revert Hlen. generalize (take_drop n s).
  generalize (take n s) (drop n s). intros t d <- <-.
  f_equal.
  - cbn [cursor cb_data].
    rewrite (app_assoc pre), <- (app_assoc t). apply load_place.
  - rewrite <- (app_assoc t), cursor_advance. now rewrite <- app_assoc.
Qed.
End ReaderPlacedAny.

(** X17. A response with a value of any length, decoded from its
    encoding on the same host: the operation and the error come back,
    and of the value its first [length mod 65536] bytes; the rest of
    the value is left in the buffer, unread. A value of at most 65,535
    bytes comes back whole; one of 65,536 bytes comes back empty. *)
Theorem long_value_is_cut_on_the_wire host base (mem : memory)
    (response : Response.t) :
  let buf := write_Response host response [] in
  let value := Response.value response in
  let n := Z.to_nat (std_size value mod 65536) in
  read_Response host (place base buf mem) (buffer_of base buf)
  = (Response.Make (Response.operation response) (Response.error response)
                   (take n value),
     MkBuffer (base + (4 + n)) (length value - n)).
Proof.
  intros buf value n. subst buf. rewrite write_Response_app.
  destruct response as [[op] [err] v].
  cbn [Response.operation Response.error Response.value operation_code_of
       error_code_of app] in *. subst value.
  set (fv := object_bytes host 2 (std_size v mod 65536) ++ v).
  set (whole := op :: err :: fv).
  unfold read_Response.
  rewrite buffer_of_cursor.
  change whole with ([op] ++ [err] ++ fv) at 2.
  rewrite (Reader_byte_placed host base mem whole [] ([err] ++ fv) op) by done.
  rewrite (Reader_byte_placed host base mem whole ([] ++ [op]) fv err) by done.
  replace (cursor base (([] ++ [op]) ++ [err]) fv)
    with (cursor base [op; err] (fv ++ [])) by now rewrite app_nil_r.
  rewrite (Reader_string_placed_any host base mem whole [op; err] [] v fv);
    [|done|subst whole; now rewrite app_nil_r].
  rewrite !byte_of_to_Z. fold n. f_equal.
  unfold cursor. rewrite app_nil_r, !length_app, object_bytes_length.
  assert (n <= length v)%nat as Hn.
  { subst n. unfold std_size.
    pose proof (Z.mod_le (Z.of_nat (length v)) 65536 ltac:(lia) ltac:(lia)).
    pose proof (Z.mod_pos_bound (Z.of_nat (length v)) 65536 ltac:(lia)). lia. }
  rewrite length_take, length_drop. cbn [length]. f_equal; lia.
Qed.

(** ** The client: one exchange *)

Section ClientMore.
Variable host : ByteOrder.
Variable net : Client.Network.

Lemma Client_write_ok (request : Request.t) (c : Client.t) :
  let payload := write_Request host request [] in
  let word := object_bytes host 8 (std_size payload) in
  Client.write_result net (Client.socket_ c) word = 0%nat ->
  Client.write_result net (Client.socket_ c ++ [Client.Event_write word]) payload
  = 0%nat ->
  Client.write host net request c
  = (Client.Returns 0%nat,
     Client.Make (Client.lastEndpoint_ c)
       (Client.socket_ c ++ [Client.Event_write word; Client.Event_write payload])
       (Client.m_isConnected c)).
Proof.
  intros payload word H1 H2.
  unfold Client.write, Client.asio_write, Client.socket_call, mbind,
    Client.M_bind.
  fold payload. fold word. rewrite H1. cbn [decide].
  rewrite decide_True by done.
  cbn [Client.socket_ Client.lastEndpoint_ Client.m_isConnected].
  rewrite H2. now rewrite <- app_assoc.
Qed.

Lemma Client_write_failed (request : Request.t) (c : Client.t) (ec : nat) :
  let payload := write_Request host request [] in
  let word := object_bytes host 8 (std_size payload) in
  Client.write_result net (Client.socket_ c) word = ec ->
  ec <> 0%nat ->
  Client.write host net request c
  = (Client.Returns ec,
     Client.Make (Client.lastEndpoint_ c)
       (Client.socket_ c ++ [Client.Event_write word])
       (Client.m_isConnected c)).
Proof.
  intros payload word H1 Hec.
  unfold Client.write, Client.asio_write, Client.socket_call, mbind,
    Client.M_bind.
  fold payload. fold word. rewrite H1.
  now rewrite decide_False by done.
Qed.

Lemma Client_read_ok (response0 r : Response.t) (c : Client.t) :
  let answer := write_Response host r [] in
  std_size (Response.value r) <= 65535 ->
  Client.read_result net (Client.socket_ c) 8
  = (0%nat, object_bytes host 8 (std_size answer)) ->
  Client.read_result net (Client.socket_ c ++ [Client.Event_read 8])
    (length answer)
  = (0%nat, answer) ->
  Client.read host net response0 c
  = (Client.Returns (0%nat, r),
     Client.Make (Client.lastEndpoint_ c)
       (Client.socket_ c
        ++ [Client.Event_read 8; Client.Event_read (length answer)])
       (Client.m_isConnected c)).
Proof.
  intros answer Hv H1 H2.
  assert (0 <= std_size answer < 2 ^ 64) as Hsize.
  { subst answer. rewrite write_Response_app. unfold std_size in *.
    rewrite !length_app, !object_bytes_length. cbn [length]. lia. }
  unfold Client.read, Client.asio_read, Client.socket_call, mbind,
    Client.M_bind.
  rewrite H1.
  rewrite take_ge by (rewrite object_bytes_length; lia).
  rewrite memcpy_at_full by now rewrite !object_bytes_length.
  rewrite object_value_bytes,
    Z.mod_small by (change (256 ^ Z.of_nat 8) with (2 ^ 64); lia).
  rewrite decide_True by done.
  cbn [Client.socket_ Client.lastEndpoint_ Client.m_isConnected].
  rewrite length_replicate.
  assert (Z.to_nat (std_size answer) = length answer) as -> by apply Nat2Z.id.
  rewrite H2, firstn_all.
  rewrite memcpy_at_full by now rewrite length_replicate.
  subst answer. rewrite read_Response_write_Response by done.
  cbn [mret Client.M_ret]. unfold mret, Client.M_ret.
  now rewrite <- app_assoc.
Qed.

Ltac unfold_send :=
  unfold Client.send, Client.when, Client.throw, Client.this, Client.assign,
    Client.socket_connect, Client.socket_close, Client.socket_call,
    mbind, Client.M_bind, mret, Client.M_ret.

(** [send] once the lengths are valid: the endpoint is remembered, a
    client that is not connected connects, and a connected client
    writes, reads and, on an error, closes. *)
Lemma send_steps (endpoint_ : Client.endpoint)
    (request : Request.t) (response0 : Response.t) (c : Client.t) :
  isValidKey (Request.key request) = true ->
  isValidValue (Request.value request) = true ->
  Client.send host net endpoint_ request response0 c
  = let '(errorCode, c2) :=
      if Client.m_isConnected c
      then (0%nat, Client.Make endpoint_ (Client.socket_ c) true)
      else
        let ec := Client.connect_result net (Client.socket_ c) endpoint_ in
        (ec, Client.Make endpoint_
               (Client.socket_ c ++ [Client.Event_connect endpoint_])
               (bool_decide (ec = 0%nat))) in
    if Client.m_isConnected c2 then
      match Client.write host net request c2 with
      | (Client.Returns ec, c3) =>
          match (if decide (ec = 0%nat) then Client.read host net response0 c3
                 else (Client.Returns (ec, response0), c3)) with
          | (Client.Returns (ec, response), c4) =>
              if bool_decide (ec = 0%nat)
              then (Client.Returns (ec, response), c4)
              else (Client.Returns (ec, response),
                    Client.Make (Client.lastEndpoint_ c4)
                      (Client.socket_ c4 ++ [Client.Event_close]) false)
          | (Client.Throws e, c4) => (Client.Throws e, c4)
          end
      | (Client.Throws e, c3) => (Client.Throws e, c3)
      end
    else (Client.Returns (errorCode, response0), c2).
Proof.
  intros Hk Hv. destruct c as [last h connected].
  unfold_send. rewrite Hk, Hv.
  destruct connected;
    repeat first
      [ progress subst
      | match goal with
        | H : ~ (_ <> _) |- _ => apply dec_stable in H
        end
      | progress cbn -[Client.write Client.read bool_decide decide]
      | match goal with
        | |- context [@bool_decide ?P ?d] => destruct (@bool_decide_reflect P d)
        | |- context [@decide ?P ?d] => destruct (@decide P d)
        end
      | match goal with
        | |- context [Client.write ?a ?b ?r ?c] =>
            destruct (Client.write a b r c) as [[?ec|?e] ?c3]
        | |- context [Client.read ?a ?b ?r ?c] =>
            destruct (Client.read a b r c) as [[[?ec ?resp]|?e] ?c4]
        end ];
    try reflexivity; try congruence.
Qed.

Lemma send_exchange (endpoint_ : Client.endpoint)
    (request : Request.t) (response0 r : Response.t) (c : Client.t) :
  isValidKey (Request.key request) = true ->
  isValidValue (Request.value request) = true ->
  std_size (Response.value r) <= 65535 ->
  Client.m_isConnected c = false ->
  Client.connect_result net (Client.socket_ c) endpoint_ = 0%nat ->
  serves host net (Client.socket_ c ++ [Client.Event_connect endpoint_])
         request r ->
  Client.send host net endpoint_ request response0 c
  = (Client.Returns (0%nat, r),
     Client.Make endpoint_
       (Client.socket_ c
        ++ Client.Event_connect endpoint_ :: exchange host request r)
       true).
Proof.
  intros Hk Hv Hr Hc Hconn (Hw1 & Hw2 & Hr1 & Hr2).
  rewrite send_steps by done. rewrite Hc, Hconn.
  cbn [bool_decide decide_rel Client.m_isConnected].
  rewrite bool_decide_true by done. cbn [Client.m_isConnected].
  rewrite Client_write_ok by (cbn [Client.socket_]; assumption).
  rewrite decide_True by done.
  cbn [Client.socket_ Client.lastEndpoint_ Client.m_isConnected].
  rewrite (Client_read_ok response0 r);
    [|done|exact Hr1|cbn [Client.socket_]; rewrite <- app_assoc; exact Hr2].
  rewrite bool_decide_true by done.
  cbn [Client.socket_ Client.lastEndpoint_ Client.m_isConnected].
  unfold exchange. now rewrite <- !app_assoc.
Qed.

(** X18. One exchange of a client that is not connected, on a network
    that accepts the connection and answers with the frame of a
    response [r] whose value is at most 65,535 bytes: [send] connects
    to the endpoint, writes the size word and the encoded request,
    reads 8 bytes and then the announced number of bytes, returns
    success and [r], and stays connected, with the endpoint
    remembered. *)
Theorem send_exchanges_one_frame (endpoint_ : Client.endpoint)
    (request : Request.t) (response0 r : Response.t) (c : Client.t) :
  isValidKey (Request.key request) = true ->
  isValidValue (Request.value request) = true ->
  std_size (Response.value r) <= 65535 ->
  Client.m_isConnected c = false ->
  Client.connect_result net (Client.socket_ c) endpoint_ = 0%nat ->
  serves host net (Client.socket_ c ++ [Client.Event_connect endpoint_])
         request r ->
  Client.send host net endpoint_ request response0 c
  = (Client.Returns (0%nat, r),
     Client.Make endpoint_
       (Client.socket_ c
        ++ Client.Event_connect endpoint_ :: exchange host request r)
       true).
Proof. apply send_exchange. Qed.

End ClientMore.

Lemma send_exchanges_one_frame_witness :
  Client.send LittleEndian (scripted LittleEndian a_response) (1%N, 80%N)
    a_request (Response.Make INSERT NONE []) Client.new
  = (Client.Returns (0%nat, a_response),
     Client.Make (1%N, 80%N)
       (Client.socket_ Client.new
        ++ Client.Event_connect (1%N, 80%N)
           :: exchange LittleEndian a_request a_response)
       true).
Proof.
  apply (send_exchanges_one_frame LittleEndian (scripted LittleEndian a_response)
           (1%N, 80%N) a_request (Response.Make INSERT NONE []) a_response
           Client.new).
  - reflexivity.
  - reflexivity.
  - vm_compute. discriminate.
  - reflexivity.
  - reflexivity.
  - repeat split.
Defined.

(** X19. A connected client does not connect again, whatever endpoint
    it is given: [send] to an endpoint, also to one that differs from
    the one the socket was connected to, makes the exchange on the open
    socket, and remembers the new endpoint. *)
Theorem connected_client_never_reconnects host (net : Client.Network)
    (endpoint_ : Client.endpoint)
    (request : Request.t) (response0 r : Response.t) (c : Client.t) :
  isValidKey (Request.key request) = true ->
  isValidValue (Request.value request) = true ->
  std_size (Response.value r) <= 65535 ->
  Client.m_isConnected c = true ->
  serves host net (Client.socket_ c) request r ->
  Client.send host net endpoint_ request response0 c
  = (Client.Returns (0%nat, r),
     Client.Make endpoint_ (Client.socket_ c ++ exchange host request r) true).
Proof.
  intros Hk Hv Hr Hc (Hw1 & Hw2 & Hr1 & Hr2).
  rewrite send_steps by done. rewrite Hc. cbn [Client.m_isConnected].
  rewrite Client_write_ok by (cbn [Client.socket_]; assumption).
  rewrite decide_True by done.
  cbn [Client.socket_ Client.lastEndpoint_ Client.m_isConnected].
  rewrite (Client_read_ok host net response0 r);
    [|done|exact Hr1|cbn [Client.socket_]; rewrite <- app_assoc; exact Hr2].
  rewrite bool_decide_true by done.
  cbn [Client.socket_ Client.lastEndpoint_ Client.m_isConnected].
  unfold exchange. now rewrite <- !app_assoc.
Qed.

Lemma connected_client_never_reconnects_witness :
  Client.send BigEndian (scripted BigEndian a_response) (2%N, 8080%N)
    a_request (Response.Make INSERT NONE []) connected_client
  = (Client.Returns (0%nat, a_response),
     Client.Make (2%N, 8080%N)
       (Client.socket_ connected_client
        ++ exchange BigEndian a_request a_response) true).
Proof.
  apply (connected_client_never_reconnects BigEndian
           (scripted BigEndian a_response) (2%N, 8080%N) a_request
           (Response.Make INSERT NONE []) a_response connected_client).
  - reflexivity.
  - reflexivity.
  - vm_compute. discriminate.
  - reflexivity.
  - repeat split.
Defined.

(** X20. When the connection is refused, [send] returns the error of
    [connect] and the caller's response as it was; nothing is written
    or read, the socket is not closed, the client stays disconnected
    and the endpoint is remembered. *)
Theorem send_returns_connect_error host (net : Client.Network)
    (endpoint_ : Client.endpoint)
    (request : Request.t) (response0 : Response.t) (c : Client.t) :
  isValidKey (Request.key request) = true ->
  isValidValue (Request.value request) = true ->
  Client.m_isConnected c = false ->
  Client.connect_result net (Client.socket_ c) endpoint_ <> 0%nat ->
  Client.send host net endpoint_ request response0 c
  = (Client.Returns
       (Client.connect_result net (Client.socket_ c) endpoint_, response0),
     Client.Make endpoint_
       (Client.socket_ c ++ [Client.Event_connect endpoint_]) false).
Proof.
  intros Hk Hv Hc Hconn.
  rewrite send_steps by done. rewrite Hc. cbv zeta.
  now rewrite bool_decide_false by done.
Qed.

Lemma send_returns_connect_error_witness :
  Client.send LittleEndian unreachable (1%N, 80%N) a_request a_response
    Client.new
  = (Client.Returns (111%nat, a_response),
     Client.Make (1%N, 80%N) [Client.Event_connect (1%N, 80%N)] false).
Proof.
  apply (send_returns_connect_error LittleEndian unreachable (1%N, 80%N)
           a_request a_response Client.new).
  - reflexivity.
  - reflexivity.
  - reflexivity.
  - vm_compute. discriminate.
Defined.

(** X21. When writing the size word fails on a connected client,
    [send] returns that error and the caller's response as it was, the
    encoded request is not written and nothing is read, the socket is
    closed and the client is disconnected. *)
Theorem send_closes_on_write_error host (net : Client.Network)
    (endpoint_ : Client.endpoint)
    (request : Request.t) (response0 : Response.t) (c : Client.t) :
  let payload := write_Request host request [] in
  let word := object_bytes host 8 (std_size payload) in
  isValidKey (Request.key request) = true ->
  isValidValue (Request.value request) = true ->
  Client.m_isConnected c = true ->
  Client.write_result net (Client.socket_ c) word <> 0%nat ->
  Client.send host net endpoint_ request response0 c
  = (Client.Returns (Client.write_result net (Client.socket_ c) word, response0),
     Client.Make endpoint_
       (Client.socket_ c ++ [Client.Event_write word; Client.Event_close])
       false).
Proof.
  intros payload word Hk Hv Hc Hw.
  rewrite send_steps by done. rewrite Hc. cbn [Client.m_isConnected].
  rewrite (Client_write_failed host net request _
             (Client.write_result net (Client.socket_ c) word)) by done.
  rewrite decide_False by done. rewrite bool_decide_false by done.
  cbn [Client.socket_ Client.lastEndpoint_ Client.m_isConnected].
  now rewrite <- app_assoc.
Qed.

Lemma send_closes_on_write_error_witness :
  let word :=
    object_bytes LittleEndian 8
      (std_size (write_Request LittleEndian a_request [])) in
  Client.send LittleEndian unreachable (1%N, 80%N) a_request a_response
    connected_client
  = (Client.Returns (32%nat, a_response),
     Client.Make (1%N, 80%N)
       (Client.socket_ connected_client
        ++ [Client.Event_write word; Client.Event_close])
       false).
Proof.
  apply (send_closes_on_write_error LittleEndian unreachable (1%N, 80%N)
           a_request a_response connected_client).
  - reflexivity.
  - reflexivity.
  - reflexivity.
  - vm_compute. discriminate.
Defined.

(** ** Client and session together *)

(** X22. One exchange from end to end, between a client and a session
    on hosts of one byte order, when every write completes without
    error. A client that is not connected
    sends a request with a declared operation, a valid key and a value
    of at most 65,535 bytes to a session; when the value of the answer
    is at most 65,535 bytes too, [send] returns success and exactly the
    response that [handleRequest] makes of that request on the
    server's store, and the client stays connected. *)
Theorem send_returns_the_answer_of_the_store host (mem : memory) (base : nat)
    indeterminate (s : Session.t) (shared : Session.Shared)
    (heap : memory) (buf_address : nat)
    (endpoint_ : Client.endpoint)
    (request : Request.t) (response0 : Response.t) (c : Client.t) :
  let payload := write_Request host request [] in
  let answered :=
    Session.handleRequest indeterminate
      (Session.Make (std_size payload) payload request (Session.response_ s))
      shared in
  let answer := Session.response_ (fst answered) in
  let net :=
    session_network host mem base indeterminate s shared heap buf_address in
  declared_operation (Request.operation request) = true ->
  isValidKey (Request.key request) = true ->
  std_size (Request.value request) <= 65535 ->
  std_size (Response.value answer) <= 65535 ->
  Client.m_isConnected c = false ->
  Client.send host net endpoint_ request response0 c
  = (Client.Returns (0%nat, answer),
     Client.Make endpoint_
       (Client.socket_ c
        ++ Client.Event_connect endpoint_ :: exchange host request answer)
       true).
Proof.
  intros payload answered answer net Hdecl Hkey Hv Ha Hc.
  assert (std_size (Request.key request) <= 65535) as Hk.
  { unfold isValidKey, MAX_KEY_LENGTH in Hkey. lia. }
  assert (isValidValue (Request.value request) = true) as Hvalid.
  { unfold isValidValue, MAX_VALUE_LENGTH. lia. }
  apply send_exchange; try done.
  pose proof (on_body_encoded_request host mem base indeterminate request s
                shared Hdecl Hk Hv) as Hbody.
  cbv zeta in Hbody. fold payload in Hbody. fold answered in Hbody.
  fold answer in Hbody.
  set (h := Client.socket_ c ++ [Client.Event_connect endpoint_]).
  unfold serves. fold payload.
  split; [reflexivity|]. split; [reflexivity|].
  unfold exchange. fold payload. cbn [take].
  unfold net, session_network. cbn [Client.read_result].
  rewrite !rev_app_distr. cbn [rev app exchange_state Nat.add].
  rewrite Hbody. cbn [concat]. rewrite app_nil_r.
  split; f_equal.
  - rewrite drop_0, take_app_length'; [done|now rewrite object_bytes_length].
  - rewrite drop_app_length' by now rewrite object_bytes_length.
    apply firstn_all.
Qed.

Lemma send_returns_the_answer_of_the_store_witness :
  let request := Request.Make GET key_a_NUL_b [] in
  let shared := Session.MkShared {[ [x61] := [x31] ]} (Stats.Make 1 ∅) in
  let net :=
    session_network LittleEndian (fun _ => xff) 64 NONE Session.new shared
                    (fun _ => x00) 32 in
  let answer := Response.Make GET NONE [x31] in
  Client.send LittleEndian net (1%N, 80%N) request a_response Client.new
  = (Client.Returns (0%nat, answer),
     Client.Make (1%N, 80%N)
       (Client.socket_ Client.new
        ++ Client.Event_connect (1%N, 80%N)
           :: exchange LittleEndian request answer)
       true).
Proof.
  intros request shared net answer.
  apply (send_returns_the_answer_of_the_store LittleEndian (fun _ => xff) 64
           NONE Session.new shared (fun _ => x00) 32 (1%N, 80%N) request
           a_response Client.new).
  - reflexivity.
  - reflexivity.
  - vm_compute. discriminate.
  - vm_compute. discriminate.
  - reflexivity.
Defined.
